(** * Sound sources: descriptors, the per-entity component and the system

    A shallow embedding of [src/sound/sound_source_system.h] and its
    implementation file: the [Sound] descriptor, [SoundSourceComponent]
    and [SoundSourceSystem], with the properties of their serialization,
    of the name-keyed sound collection and of the per-frame [update]. *)

From stdpp Require Import base gmap strings list.
From Stdlib Require Import ZArith.

Local Open Scope Z_scope.
Set Warnings "-register-all".

(** ** Values *)

(** A C++ [float], held as its IEEE-754 binary32 bit pattern.  The code
    only stores, copies and passes floats on; it never computes with them. *)
Record float := F32 { f32_bits : Z }.

Definition float_zero : float := F32 0.
Definition float_1 : float := F32 1065353216.      (* 1.0f    = 0x3F800000 *)
Definition float_neg1 : float := F32 3212836864.   (* -1.0f   = 0xBF800000 *)
Definition float_100 : float := F32 1120403456.    (* 100.0f  = 0x42C80000 *)

(** An [int16_t]: an integer with its range; the range is checked by a
    boolean, so that two values with the same integer are the same value. *)
Definition in_int16 (n : Z) : bool := (-32768 <=? n) && (n <=? 32767).

Record int16 := mkInt16 {
  int16_value : Z;
  int16_range : Is_true (in_int16 int16_value);
}.

(** Raw pointers are addresses; a nullable pointer is an [option]. *)
Abbreviation ptr := positive (only parsing).
Abbreviation EntityId := Z (only parsing).

(** Undefined behaviour the code can run into, made explicit. *)
Inductive Fault :=
| NullDeref       (* a member access through a null pointer *)
| DanglingDeref.  (* a member access through a pointer to a destroyed object *)

Inductive result (A : Type) :=
| Ok (a : A)
| Err (e : Fault).
Arguments Ok {A} a.
Arguments Err {A} e.

Definition result_bind {A B} (r : result A) (k : A → result B) : result B :=
  match r with
  | Ok a => k a
  | Err e => Err e
  end.

(** ** StorageContainer *)

(** Modelled from the spec: [StorageContainer] and [StorageList] of
    engine/serialization.h are not part of the sources at hand.  The spec
    calls it a key-value serialization format: a container maps string keys
    to typed values, [set] writes a key, and [get<T>(key, default)] reads
    it, giving the default (a value-initialised [T] when none is passed) when
    the key is absent or holds a value of another type. *)
Inductive StorageValue :=
| VBool (b : bool)
| VInt16 (z : int16)
| VUInt8 (z : Z)
| VFloat (f : float)
| VString (s : string)
| VList (l : list (gmap string StorageValue)).

Abbreviation StorageContainer := (gmap string StorageValue) (only parsing).
Abbreviation StorageList := (list (gmap string StorageValue)) (only parsing).

Module Storage.
Definition set (key : string) (v : StorageValue) (st : StorageContainer)
  : StorageContainer := <[key := v]> st.

Definition get_bool (key : string) (default : bool) (st : StorageContainer) : bool :=
  match st !! key with Some (VBool b) => b | _ => default end.

Definition get_int16 (key : string) (default : int16) (st : StorageContainer) : int16 :=
  match st !! key with Some (VInt16 z) => z | _ => default end.

Definition get_uint8 (key : string) (default : Z) (st : StorageContainer) : Z :=
  match st !! key with Some (VUInt8 z) => z | _ => default end.

Definition get_float (key : string) (default : float) (st : StorageContainer) : float :=
  match st !! key with Some (VFloat f) => f | _ => default end.

Definition get_string (key : string) (default : string) (st : StorageContainer) : string :=
  match st !! key with Some (VString s) => s | _ => default end.

Definition get_list (key : string) (default : StorageList) (st : StorageContainer)
  : StorageList :=
  match st !! key with Some (VList l) => l | _ => default end.
End Storage.

(** ** Sound *)

(** [enum PlayState { Play, Pause, Stop }].  An object of the enumeration
    holds one of the enumerators or, after the [static_cast] of [Sound::load],
    whatever [int16_t] the container held: the object is modelled by the
    [int16_t] it converts to, the cast and the conversion are the constructor
    and the projection, and the enumerators are the values 0, 1 and 2. *)
Record PlayState := PlayState_of_int16 { PlayState_to_int16 : int16 }.

Definition Play : PlayState := PlayState_of_int16 (mkInt16 0 I).
Definition Pause : PlayState := PlayState_of_int16 (mkInt16 1 I).
Definition Stop : PlayState := PlayState_of_int16 (mkInt16 2 I).

(** A [switch] over a play state with a case for each enumerator and a
    [default]. *)
Definition PlayState_switch {A} (state : PlayState) (play pause stop default : A) : A :=
  match int16_value (PlayState_to_int16 state) with
  | 0 => play
  | 1 => pause
  | 2 => stop
  | _ => default
  end.

(** [struct Properties : public Touchable].
    Modelled from the spec: the [Touchable] base (engine/touchable.h) is not
    part of the sources at hand.  The spec describes a dirty flag: [touch]
    raises it, [untouch] clears it and [hasChanges] reads it.  The flag sits
    in the record as its first field. *)
Record Properties := mkProperties {
  hasChanges : bool;
  playState : PlayState;
  loop : bool;
  volume : float;
  maxDistance : float;
  rolloffFactor : float;
  referenceDistance : float;
  priority : Z;                         (* uint8_t *)
}.

Definition touch (p : Properties) : Properties :=
  mkProperties true (playState p) (loop p) (volume p) (maxDistance p)
    (rolloffFactor p) (referenceDistance p) (priority p).

Definition untouch (p : Properties) : Properties :=
  mkProperties false (playState p) (loop p) (volume p) (maxDistance p)
    (rolloffFactor p) (referenceDistance p) (priority p).

Definition set_playState (v : PlayState) (p : Properties) : Properties :=
  mkProperties (hasChanges p) v (loop p) (volume p) (maxDistance p)
    (rolloffFactor p) (referenceDistance p) (priority p).

Record Sound := mkSound {
  m_properties : Properties;
  m_sound : option ptr;                 (* OgreOggSound::OgreOggISound* *)
  m_filename : string;
  m_name : string;
}.

(** ** What the missing headers decide *)

(** A native sound object of the audio library, as far as the system looks
    at it: the name it was created under and the scene node it hangs on
    ([getParentSceneNode]). *)
Record OgreOggISound := mkOgreSound {
  og_name : string;
  og_parent : option ptr;               (* Ogre::SceneNode* *)
}.

(** Parameters for what lives outside the sources at hand: the flag of a
    fresh [Touchable]; the [Component] base class with its own state, [load]
    and [storage]; and the audio library's decision whether [createSound]
    yields a sound, given its live sounds and the name and file asked for. *)
Class Engine := {
  Touchable_initial : bool;
  ComponentBase : Type;
  Component_new : ComponentBase;
  Component_load : StorageContainer → ComponentBase → ComponentBase;
  Component_storage : ComponentBase → StorageContainer;
  createSound_succeeds : gmap ptr OgreOggISound → string → string → bool;
}.

#[global] Instance result_ret : MRet result := @Ok.
#[global] Instance result_mbind : MBind result := λ A B k r, result_bind r k.

(** ** A name-keyed map in iteration order *)

(** [std::unordered_map<std::string, V>] as the list of its entries in the
    order a range-for visits them.  [emplace] inserts only when the key is
    absent; where a new entry lands in the iteration order is unspecified,
    the model puts it last. *)
Module NameMap.
Section Ops.
Context {V : Type}.

Fixpoint find (key : string) (m : list (string * V)) : option V :=
  match m with
  | [] => None
  | (k, v) :: rest => if decide (k = key) then Some v else find key rest
  end.

Definition emplace (key : string) (v : V) (m : list (string * V)) : list (string * V) :=
  match find key m with
  | Some _ => m
  | None => m ++ [(key, v)]
  end.

Fixpoint erase (key : string) (m : list (string * V)) : list (string * V) :=
  match m with
  | [] => []
  | (k, v) :: rest => if decide (k = key) then rest else (k, v) :: erase key rest
  end.
End Ops.
End NameMap.

(** [Sound] objects live on the heap: the component owns them through the
    [unique_ptr]s of [m_sounds] and hands raw pointers out. *)
Abbreviation Heap := (gmap ptr Sound) (only parsing).

(** The value type of the entity filter: pointers to the entity's
    [OgreSceneNodeComponent] and [SoundSourceComponent]. *)
Abbreviation ComponentGroup := (ptr * ptr)%type (only parsing).

Section Model.
Context `{!Engine}.

(** The member initialisers of [Properties]. *)
Definition Properties_default : Properties :=
  mkProperties Touchable_initial Stop false float_1 float_neg1 float_neg1 float_100 0.

(** [Sound::Sound(name, filename)]. *)
Definition Sound_new (name filename : string) : Sound :=
  mkSound Properties_default None filename name.

(** [Sound::Sound() : Sound("", "")]. *)
Definition Sound_default : Sound := Sound_new "" "".

Definition Sound_filename (s : Sound) : string := m_filename s.

(** [Sound::load]: every field is read with the default the code passes, or
    with the value-initialised one. *)
Definition Sound_load (storage : StorageContainer) (s : Sound) : Sound :=
  let filename := Storage.get_string "filename" "" storage in
  let name := Storage.get_string "name" "" storage in
  mkSound
    (mkProperties
       (hasChanges (m_properties s))
       (PlayState_of_int16
          (Storage.get_int16 "playState" (PlayState_to_int16 Stop) storage))
       (Storage.get_bool "loop" false storage)
       (Storage.get_float "volume" float_zero storage)
       (Storage.get_float "maxDistance" float_neg1 storage)
       (Storage.get_float "rolloffFactor" float_neg1 storage)
       (Storage.get_float "referenceDistance" float_100 storage)
       (Storage.get_uint8 "priority" 0 storage))
    (m_sound s) filename name.

Definition Sound_name (s : Sound) : string := m_name s.

Definition Sound_play (s : Sound) : Sound :=
  mkSound (touch (set_playState Play (m_properties s)))
    (m_sound s) (m_filename s) (m_name s).

Definition Sound_pause (s : Sound) : Sound :=
  mkSound (touch (set_playState Pause (m_properties s)))
    (m_sound s) (m_filename s) (m_name s).

Definition Sound_stop (s : Sound) : Sound :=
  mkSound (touch (set_playState Stop (m_properties s)))
    (m_sound s) (m_filename s) (m_name s).

Definition Sound_storage (s : Sound) : StorageContainer :=
  let storage : StorageContainer := ∅ in
  let storage := Storage.set "filename" (VString (m_filename s)) storage in
  let storage := Storage.set "name" (VString (m_name s)) storage in
  let storage :=
    Storage.set "playState" (VInt16 (PlayState_to_int16 (playState (m_properties s))))
      storage in
  let storage := Storage.set "loop" (VBool (loop (m_properties s))) storage in
  let storage := Storage.set "volume" (VFloat (volume (m_properties s))) storage in
  let storage := Storage.set "maxDistance" (VFloat (maxDistance (m_properties s))) storage in
  let storage :=
    Storage.set "rolloffFactor" (VFloat (rolloffFactor (m_properties s))) storage in
  let storage :=
    Storage.set "referenceDistance" (VFloat (referenceDistance (m_properties s))) storage in
  let storage := Storage.set "priority" (VUInt8 (priority (m_properties s))) storage in
  storage.

(** ** SoundSourceComponent *)


Record SoundSourceComponent := mkSoundSource {
  base : ComponentBase;                       (* the Component subobject *)
  m_relativeToListener : bool;                (* the value of the TouchableValue *)
  m_addedSounds : list ptr;
  m_removedSounds : list ptr;
  m_sounds : list (string * ptr);
}.

(** A default-constructed component. *)
Definition SoundSourceComponent_new : SoundSourceComponent :=
  mkSoundSource Component_new true [] [] [].

(** [make_unique<Sound>(...)]: a new object at an address no live [Sound]
    has. *)
Definition make_unique (s : Sound) (h : Heap) : ptr * Heap :=
  let p := fresh (dom h) in (p, <[p := s]> h).

(** [m_sounds.emplace(key, std::move(sound))]: when the key is taken the
    map stays as it is and the [Sound] that was to be inserted dies with its
    [unique_ptr]. *)
Definition emplace_owned (key : string) (p : ptr) (h : Heap) (m : list (string * ptr))
  : Heap * list (string * ptr) :=
  match NameMap.find key m with
  | Some _ => (delete p h, m)
  | None => (h, NameMap.emplace key p m)
  end.

Definition SoundSourceComponent_addSound (name filename : string)
    (h : Heap) (c : SoundSourceComponent) : ptr * Heap * SoundSourceComponent :=
  let '(rawSound, h) := make_unique (Sound_new name filename) h in
  let '(h, sounds) := emplace_owned name rawSound h (m_sounds c) in
  (rawSound, h,
   mkSoundSource (base c) (m_relativeToListener c)
     (m_addedSounds c ++ [rawSound]) (m_removedSounds c) sounds).

(** The loop of [SoundSourceComponent::load] over the stored sounds; the
    code makes the object and then loads it, the model makes it loaded. *)
Fixpoint load_sounds (sounds : StorageList) (h : Heap) (m : list (string * ptr))
  : Heap * list (string * ptr) :=
  match sounds with
  | [] => (h, m)
  | soundStorage :: rest =>
      let sound := Sound_load soundStorage Sound_default in
      let '(p, h) := make_unique sound h in
      let '(h, m) := emplace_owned (Sound_name sound) p h m in
      load_sounds rest h m
  end.

Definition SoundSourceComponent_load (storage : StorageContainer)
    (h : Heap) (c : SoundSourceComponent) : Heap * SoundSourceComponent :=
  let base := Component_load storage (base c) in
  let relativeToListener := Storage.get_bool "relativeToListener" false storage in
  let sounds := Storage.get_list "sounds" [] storage in
  let '(h, m) := load_sounds sounds h (m_sounds c) in
  (h, mkSoundSource base relativeToListener (m_addedSounds c) (m_removedSounds c) m).

Definition SoundSourceComponent_removeSound (name : string)
    (h : Heap) (c : SoundSourceComponent) : Heap * SoundSourceComponent :=
  match NameMap.find name (m_sounds c) with
  | Some p =>
      (delete p h,
       mkSoundSource (base c) (m_relativeToListener c) (m_addedSounds c)
         (m_removedSounds c ++ [p]) (NameMap.erase name (m_sounds c)))
  | None => (h, c)
  end.

(** [pair.second->storage()] for one entry of [m_sounds]. *)
Definition stored_sound (h : Heap) (pair : string * ptr) : result StorageContainer :=
  match h !! pair.2 with
  | Some s => Ok (Sound_storage s)
  | None => Err DanglingDeref
  end.

(** [SoundSourceComponent::storage]: the list [sounds] is filled and then
    dropped, the container that is returned never receives it. *)
Definition SoundSourceComponent_storage (h : Heap) (c : SoundSourceComponent)
  : result StorageContainer :=
  let storage := Component_storage (base c) in
  let storage := Storage.set "relativeToListener" (VBool (m_relativeToListener c)) storage in
  sounds ← mapM (stored_sound h) (m_sounds c);
  Ok storage.

(** ** SoundSourceSystem *)

Record OgreSceneNodeComponent := mkSceneNodeComponent {
  m_sceneNode : option ptr;             (* Ogre::SceneNode* *)
}.

(** The calls that leave the system, in the order they are made. *)
Inductive Call :=
| CoutLooping (loop : bool)
| CreateSound (name file : string) (stream loop preBuffer : bool) (ret : option ptr)
| DestroySound (sound : ptr)
| AttachObject (node sound : ptr)
| DetachObject (node sound : ptr)
| SetVolume (sound : ptr) (v : float)
| SetMaxDistance (sound : ptr) (v : float)
| SetRolloffFactor (sound : ptr) (v : float)
| SetReferenceDistance (sound : ptr) (v : float)
| SetPriority (sound : ptr) (v : Z)
| CallPlay (sound : ptr)
| CallPause (sound : ptr)
| CallStop (sound : ptr).

(** [EntityFilter<OgreSceneNodeComponent, SoundSourceComponent>] with change
    recording, as the three collections [update] reads, each in its
    iteration order. *)
Record EntityFilter := mkEntityFilter {
  entities : list (EntityId * ComponentGroup);
  addedEntities : list (EntityId * ComponentGroup);
  removedEntities : list EntityId;
}.

Definition clearChanges (f : EntityFilter) : EntityFilter :=
  mkEntityFilter (entities f) [] [].

(** Everything [update] reads or writes: the objects of the game state, the
    native sounds that are alive, the calls made so far, and the two members
    of [SoundSourceSystem::Implementation]. *)
Record World := mkWorld {
  sounds : gmap ptr Sound;
  soundSources : gmap ptr SoundSourceComponent;
  sceneNodes : gmap ptr OgreSceneNodeComponent;
  natives : gmap ptr OgreOggISound;
  calls : list Call;
  impl_entities : EntityFilter;
  impl_sounds : gmap EntityId (list (string * ptr));
}.

Definition M (A : Type) : Type := World → result (A * World).

Definition ret {A} (a : A) : M A := λ w, Ok (a, w).

Definition bind {A B} (m : M A) (k : A → M B) : M B :=
  λ w, match m w with
       | Ok (a, w') => k a w'
       | Err e => Err e
       end.

Definition fault {A} (e : Fault) : M A := λ _, Err e.

Definition get {A} (f : World → A) : M A := λ w, Ok (f w, w).

Definition modify (f : World → World) : M unit := λ w, Ok (tt, f w).

Local Notation "x <- c1 ;; c2" := (bind c1 (λ x, c2))
  (at level 100, c1 at next level, right associativity).
Local Notation "c1 ;; c2" := (bind c1 (λ _, c2))
  (at level 100, right associativity).

(** A range-for over a collection read when the loop starts. *)
Fixpoint for_each {A} (l : list A) (body : A → M unit) : M unit :=
  match l with
  | [] => ret tt
  | x :: rest => body x ;; for_each rest body
  end.

Definition set_sounds (v : gmap ptr Sound) (w : World) : World :=
  mkWorld v (soundSources w) (sceneNodes w) (natives w) (calls w)
    (impl_entities w) (impl_sounds w).

Definition set_natives (v : gmap ptr OgreOggISound) (w : World) : World :=
  mkWorld (sounds w) (soundSources w) (sceneNodes w) v (calls w)
    (impl_entities w) (impl_sounds w).

Definition set_calls (v : list Call) (w : World) : World :=
  mkWorld (sounds w) (soundSources w) (sceneNodes w) (natives w) v
    (impl_entities w) (impl_sounds w).

Definition set_impl_entities (v : EntityFilter) (w : World) : World :=
  mkWorld (sounds w) (soundSources w) (sceneNodes w) (natives w) (calls w)
    v (impl_sounds w).

Definition set_impl_sounds (v : gmap EntityId (list (string * ptr))) (w : World) : World :=
  mkWorld (sounds w) (soundSources w) (sceneNodes w) (natives w) (calls w)
    (impl_entities w) v.

(** Access through a pointer: the object must be alive. *)
Definition deref {A} (store : World → gmap ptr A) (p : ptr) : M A :=
  λ w, match store w !! p with
       | Some a => Ok (a, w)
       | None => Err DanglingDeref
       end.

Definition call (c : Call) : M unit := modify (λ w, set_calls (calls w ++ [c]) w).

(** A member call on a native sound. *)
Definition sound_call (og : ptr) (c : Call) : M unit :=
  _ <- deref natives og ;; call c.

(** [OgreOggSoundManager::createSound]: null, or a new native sound that
    hangs on no scene node yet. *)
Definition createSound (name file : string) (stream loop preBuffer : bool)
  : M (option ptr) :=
  λ w,
    if createSound_succeeds (natives w) name file then
      let og := fresh (dom (natives w)) in
      Ok (Some og,
          set_calls (calls w ++ [CreateSound name file stream loop preBuffer (Some og)])
            (set_natives (<[og := mkOgreSound name None]> (natives w)) w))
    else
      Ok (None,
          set_calls (calls w ++ [CreateSound name file stream loop preBuffer None]) w).

Definition destroySound (og : ptr) : M unit :=
  _ <- deref natives og ;;
  modify (λ w, set_natives (delete og (natives w)) w) ;;
  call (DestroySound og).

Definition attachObject (node og : ptr) : M unit :=
  o <- deref natives og ;;
  modify (λ w, set_natives (<[og := mkOgreSound (og_name o) (Some node)]> (natives w)) w) ;;
  call (AttachObject node og).

Definition detachObject (node og : ptr) : M unit :=
  o <- deref natives og ;;
  modify (λ w, set_natives (<[og := mkOgreSound (og_name o) None]> (natives w)) w) ;;
  call (DetachObject node og).

(** [m_sounds[entityId]]: the subscript makes an empty entry when there is
    none. *)
Definition impl_sounds_at (entityId : EntityId) : M (list (string * ptr)) :=
  λ w, match impl_sounds w !! entityId with
       | Some m => Ok (m, w)
       | None => Ok ([], set_impl_sounds (<[entityId := []]> (impl_sounds w)) w)
       end.

Definition Impl_removeSound (sound : option ptr) : M unit :=
  match sound with
  | Some og =>
      o <- deref natives og ;;
      match og_parent o with
      | Some sceneNode =>
          detachObject sceneNode og ;;
          destroySound og
      | None => fault NullDeref
      end
  | None => ret tt
  end.

Definition Impl_removeSoundsForEntity (entityId : EntityId) : M unit :=
  m <- impl_sounds_at entityId ;;
  for_each m (λ pair, Impl_removeSound (Some pair.2)).

Definition STREAM : bool := true.
Definition PREBUFFER : bool := true.

Definition Impl_restoreSound (entityId : EntityId) (sceneNodeComponent sound : ptr)
  : M unit :=
  snc <- deref sceneNodes sceneNodeComponent ;;
  match m_sceneNode snc with
  | None => ret tt
  | Some sceneNode =>
      s <- deref sounds sound ;;
      call (CoutLooping (loop (m_properties s))) ;;
      ogreSound <- createSound (Sound_name s) (Sound_filename s) STREAM
                     (loop (m_properties s)) PREBUFFER ;;
      match ogreSound with
      | Some og =>
          modify (λ w, set_sounds
             (<[sound := mkSound (m_properties s) (Some og) (m_filename s) (m_name s)]>
                (sounds w)) w) ;;
          m <- impl_sounds_at entityId ;;
          modify (λ w, set_impl_sounds
             (<[entityId := NameMap.emplace (Sound_name s) og m]> (impl_sounds w)) w) ;;
          attachObject sceneNode og
      | None => ret tt
      end
  end.

(** The body of the branch [if (sound->m_properties.hasChanges())]. *)
Definition sync_properties (sound : ptr) : M unit :=
  s <- deref sounds sound ;;
  let properties := m_properties s in
  match m_sound s with
  | None => fault NullDeref
  | Some ogreSound =>
      sound_call ogreSound (SetVolume ogreSound (volume properties)) ;;
      sound_call ogreSound (SetMaxDistance ogreSound (maxDistance properties)) ;;
      sound_call ogreSound (SetRolloffFactor ogreSound (rolloffFactor properties)) ;;
      sound_call ogreSound
        (SetReferenceDistance ogreSound (referenceDistance properties)) ;;
      sound_call ogreSound (SetPriority ogreSound (priority properties)) ;;
      PlayState_switch (playState properties)
        (sound_call ogreSound (CallPlay ogreSound))
        (sound_call ogreSound (CallPause ogreSound))
        (sound_call ogreSound (CallStop ogreSound))
        (ret tt) ;;
      modify (λ w, set_sounds
         (<[sound := mkSound (untouch properties) (m_sound s) (m_filename s) (m_name s)]>
            (sounds w)) w)
  end.

(** One turn of the inner loop over the tracked entities' sounds. *)
Definition update_sound (entityId : EntityId) (sceneNodeComponent sound : ptr) : M unit :=
  s <- deref sounds sound ;;
  match m_sound s with
  | None => Impl_restoreSound entityId sceneNodeComponent sound
  | Some _ => ret tt
  end ;;
  s <- deref sounds sound ;;
  if hasChanges (m_properties s) then sync_properties sound else ret tt.

(** The three loops of [SoundSourceSystem::update]. *)
Definition update_removed : M unit :=
  removed <- get (λ w, removedEntities (impl_entities w)) ;;
  for_each removed (λ entityId, Impl_removeSoundsForEntity entityId).

Definition update_added : M unit :=
  added <- get (λ w, addedEntities (impl_entities w)) ;;
  for_each added (λ value,
    let entityId := value.1 in
    let sceneNodeComponent := value.2.1 in
    soundSourceComponent <- deref soundSources value.2.2 ;;
    for_each (m_sounds soundSourceComponent) (λ pair,
      Impl_restoreSound entityId sceneNodeComponent pair.2)).

Definition update_tracked : M unit :=
  tracked <- get (λ w, entities (impl_entities w)) ;;
  for_each tracked (λ value,
    let entityId := value.1 in
    let sceneNodeComponent := value.2.1 in
    soundSourceComponent <- deref soundSources value.2.2 ;;
    for_each (m_sounds soundSourceComponent) (λ pair,
      update_sound entityId sceneNodeComponent pair.2)).

Definition SoundSourceSystem_update : M unit :=
  update_removed ;;
  update_added ;;
  modify (λ w, set_impl_entities (clearChanges (impl_entities w)) w) ;;
  update_tracked.

(** [Implementation::removeAllSounds]: the sounds of every tracked entity go,
    then the map is cleared. *)
Definition Impl_removeAllSounds : M unit :=
  tracked <- get (λ w, entities (impl_entities w)) ;;
  for_each tracked (λ item, Impl_removeSoundsForEntity item.1) ;;
  modify (λ w, set_impl_sounds ∅ w).

(** [Implementation::restoreAllSounds]. *)
Definition Impl_restoreAllSounds : M unit :=
  tracked <- get (λ w, entities (impl_entities w)) ;;
  for_each tracked (λ item,
    let entityId := item.1 in
    let sceneNodeComponent := item.2.1 in
    soundSourceComponent <- deref soundSources item.2.2 ;;
    for_each (m_sounds soundSourceComponent) (λ pair,
      Impl_restoreSound entityId sceneNodeComponent pair.2)).

End Model.

(** ** A concrete engine and concrete states *)

(** An engine whose fresh [Touchable]s are dirty, whose [Component] base
    stores nothing, and whose sound manager has every file but the one
    named by the empty string. *)
Definition plain_engine : Engine := {|
  Touchable_initial := true;
  ComponentBase := unit;
  Component_new := tt;
  Component_load := λ _ b, b;
  Component_storage := λ _, ∅;
  createSound_succeeds := λ _ _ file, negb (String.eqb file "");
|}.

Module Examples.
Section Examples.
Local Existing Instance plain_engine.

(** A component after [addSound("hum", "hum.ogg")], and its heap. *)
Definition one_sound : ptr * Heap * SoundSourceComponent :=
  SoundSourceComponent_addSound "hum" "hum.ogg" ∅ SoundSourceComponent_new.

Definition one_sound_heap : Heap := one_sound.1.2.
Definition one_sound_component : SoundSourceComponent := one_sound.2.

(** The container [storage()] makes of that component. *)
Definition one_sound_storage : StorageContainer :=
  <["relativeToListener" := VBool true]> ∅.

(** A descriptor with every field away from its default. *)
Definition loud : Sound :=
  mkSound (mkProperties true Pause true (F32 7) (F32 8) (F32 9) (F32 10) 200)
    (Some 5%positive) "loud.ogg" "loud".

(** Entity 7 with the component above and a scene-node component, listed
    by the filter as tracked and as newly added; entity 3 was removed and
    leaves the native sound 4, which hangs on scene node 9, behind. *)
Definition world_with (sceneNode : option ptr) (s : Sound) : World :=
  mkWorld
    {[1%positive := s]}
    {[1%positive := one_sound_component]}
    {[1%positive := mkSceneNodeComponent sceneNode]}
    {[4%positive := mkOgreSound "old" (Some 9%positive)]}
    []
    (mkEntityFilter [(7, (1%positive, 1%positive))] [(7, (1%positive, 1%positive))] [3])
    {[3 := [("old", 4%positive)]]}.

(** The sound as [addSound] made it, then [play()]. *)
Definition playing : Sound := Sound_play (Sound_new "hum" "hum.ogg").


(** A sound whose file the sound manager does not have. *)
Definition silent : Sound := Sound_new "hum" "".

(** The entity has a scene node and a sound that waits to be played. *)
Definition playing_world : World := world_with (Some 9%positive) playing.

(** The entity's scene node is not there yet. *)
Definition playing_world_without_node : World := world_with None playing.


(** The entity has a scene node, its sound cannot be created. *)
Definition silent_world : World := world_with (Some 9%positive) silent.

(** Two stored descriptors, and a container that holds them under the key
    [load] reads. *)
Definition stored_sounds : list Sound := [loud; playing].

Definition storage_with_sounds : StorageContainer :=
  <["sounds" := VList (Sound_storage <$> stored_sounds)]> one_sound_storage.

(** The sound on a later frame: its changes are pushed and its native
    sound 5 is alive on scene node 9. *)
Definition synced_sound : Sound :=
  mkSound (untouch (m_properties playing)) (Some 5%positive) "hum.ogg" "hum".

(** Entity 7 on a frame on which nothing enters or leaves the filter. *)
Definition steady_world : World :=
  mkWorld
    {[1%positive := synced_sound]}
    {[1%positive := one_sound_component]}
    {[1%positive := mkSceneNodeComponent (Some 9%positive)]}
    {[5%positive := mkOgreSound "hum" (Some 9%positive)]}
    []
    (mkEntityFilter [(7, (1%positive, 1%positive))] [] [])
    {[7 := [("hum", 5%positive)]]}.

(** The steady frame after a [pause()] on the sound. *)
Definition pausing_world : World :=
  set_sounds {[1%positive := Sound_pause synced_sound]} steady_world.




(** The steady frame with a play state that is none of the enumerators, as
    [load] makes it from a container that holds 3. *)
Definition offbeat : Sound :=
  mkSound
    (touch (set_playState (PlayState_of_int16 (mkInt16 3 I)) (m_properties synced_sound)))
    (Some 5%positive) "hum.ogg" "hum".

Definition offbeat_world : World :=
  set_sounds {[1%positive := offbeat]} steady_world.
End Examples.
End Examples.

(** ** Predicates of the statements *)

Section Predicates.
Context `{!Engine}.

(** The fields of a sound that the play-state calls leave alone. *)
Definition same_but_playState (s s' : Sound) : Prop :=
  Sound_name s' = Sound_name s ∧
  Sound_filename s' = Sound_filename s ∧
  m_sound s' = m_sound s ∧
  loop (m_properties s') = loop (m_properties s) ∧
  volume (m_properties s') = volume (m_properties s) ∧
  maxDistance (m_properties s') = maxDistance (m_properties s) ∧
  rolloffFactor (m_properties s') = rolloffFactor (m_properties s) ∧
  referenceDistance (m_properties s') = referenceDistance (m_properties s) ∧
  priority (m_properties s') = priority (m_properties s).

(** A sound the component owns: an entry of [m_sounds] points at it and it
    is alive. *)
Definition owns (h : Heap) (c : SoundSourceComponent) (p : ptr) (s : Sound) : Prop :=
  p ∈ (m_sounds c).*2 ∧ h !! p = Some s.

(** Each sound name identifies at most one sound the component owns. *)
Definition at_most_one_per_name (h : Heap) (c : SoundSourceComponent) : Prop :=
  ∀ p1 s1 p2 s2,
    owns h c p1 s1 → owns h c p2 s2 → Sound_name s1 = Sound_name s2 → p1 = p2.

(** The shape [m_sounds] has in every state the operations reach: no key
    twice, and every entry keyed by the name of the live sound it owns. *)
Definition keyed_by_name (h : Heap) (c : SoundSourceComponent) : Prop :=
  NoDup (m_sounds c).*1 ∧
  ∀ key p, (key, p) ∈ m_sounds c → ∃ s, h !! p = Some s ∧ Sound_name s = key.

(** The end of claim C3 as the spec words it: the pointer [addSound]
    returns refers to a sound the component owns under the name passed. *)
Definition addSound_returns_owned (name filename : string)
    (h : Heap) (c : SoundSourceComponent) : Prop :=
  let '(p, h', c') := SoundSourceComponent_addSound name filename h c in
  NameMap.find name (m_sounds c') = Some p ∧ is_Some (h' !! p).

(** What a [restoreSound] that went through to the end leaves behind. *)
Definition restored (entityId : EntityId) (sound : ptr) (s : Sound)
    (sceneNode og : ptr) (w : World) : World :=
  mkWorld
    (<[sound := mkSound (m_properties s) (Some og) (m_filename s) (m_name s)]> (sounds w))
    (soundSources w) (sceneNodes w)
    (<[og := mkOgreSound (Sound_name s) (Some sceneNode)]> (natives w))
    (calls w ++
       [CoutLooping (loop (m_properties s));
        CreateSound (Sound_name s) (Sound_filename s) STREAM (loop (m_properties s))
          PREBUFFER (Some og);
        AttachObject sceneNode og])
    (impl_entities w)
    (<[entityId := NameMap.emplace (Sound_name s) og
                     (default [] (impl_sounds w !! entityId))]> (impl_sounds w)).

(** The member call that pushes a play state to a native sound: one call
    for an enumerator, none for another value. *)
Definition play_calls (og : ptr) (state : PlayState) : list Call :=
  PlayState_switch state [CallPlay og] [CallPause og] [CallStop og] [].

(** The calls that push a set of properties to a native sound. *)
Definition sync_calls (og : ptr) (p : Properties) : list Call :=
  [SetVolume og (volume p);
   SetMaxDistance og (maxDistance p);
   SetRolloffFactor og (rolloffFactor p);
   SetReferenceDistance og (referenceDistance p);
   SetPriority og (priority p)] ++
  play_calls og (playState p).

(** The three kinds of calls: taking a native sound down, bringing one up,
    pushing properties. *)
Definition is_removal_call (c : Call) : Prop :=
  match c with
  | DetachObject _ _ | DestroySound _ => True
  | _ => False
  end.

Definition is_restore_call (c : Call) : Prop :=
  match c with
  | CoutLooping _ | CreateSound _ _ _ _ _ _ | AttachObject _ _ => True
  | _ => False
  end.

Definition is_sync_call (c : Call) : Prop :=
  match c with
  | SetVolume _ _ | SetMaxDistance _ _ | SetRolloffFactor _ _
  | SetReferenceDistance _ _ | SetPriority _ _
  | CallPlay _ | CallPause _ | CallStop _ => True
  | _ => False
  end.

(** A sound of an entity the system tracks: the filter lists the entity,
    and the entity's [SoundSourceComponent] holds the sound. *)
Definition tracked (w : World) (sound : ptr) : Prop :=
  ∃ entityId sceneNodeComponent soundSourceComponent component name,
    (entityId, (sceneNodeComponent, soundSourceComponent)) ∈ entities (impl_entities w) ∧
    soundSources w !! soundSourceComponent = Some component ∧
    (name, sound) ∈ m_sounds component.

(** Between [w] and [w'] only calls of kind [P] were made, and the
    components, the filter and every sound descriptor with its dirty flag
    are as they were ([m_sound] may differ). *)
Definition kept (P : Call → Prop) (w w' : World) : Prop :=
  soundSources w' = soundSources w ∧
  sceneNodes w' = sceneNodes w ∧
  impl_entities w' = impl_entities w ∧
  (∀ p s, sounds w !! p = Some s →
     ∃ s', sounds w' !! p = Some s' ∧ m_properties s' = m_properties s ∧
           m_name s' = m_name s ∧ m_filename s' = m_filename s) ∧
  ∃ t, calls w' = calls w ++ t ∧ Forall P t.

(** The lists of the system's map are as they were; an absent list counts
    as an empty one. *)
Definition lists_kept (w w' : World) : Prop :=
  ∀ entityId,
    default [] (impl_sounds w' !! entityId) = default [] (impl_sounds w !! entityId).

(** Between [w] and [w'] only calls of kind [P] were made; the components
    and the filter are as they were; every sound descriptor kept its
    properties but for the dirty flag, and a native pointer once it had one;
    no flag was raised, and a flag was cleared only with the properties
    pushed to the sound's native sound. *)
Definition synced (P : Call → Prop) (w w' : World) : Prop :=
  soundSources w' = soundSources w ∧
  sceneNodes w' = sceneNodes w ∧
  impl_entities w' = impl_entities w ∧
  ∃ t, calls w' = calls w ++ t ∧ Forall P t ∧
    ∀ p s, sounds w !! p = Some s →
      ∃ s', sounds w' !! p = Some s' ∧
        m_name s' = m_name s ∧ m_filename s' = m_filename s ∧
        untouch (m_properties s') = untouch (m_properties s) ∧
        (∀ og, m_sound s = Some og → m_sound s' = Some og) ∧
        (hasChanges (m_properties s) = false → hasChanges (m_properties s') = false) ∧
        (hasChanges (m_properties s) = true → hasChanges (m_properties s') = false →
           ∃ og before after,
             m_sound s' = Some og ∧
             t = before ++ sync_calls og (m_properties s) ++ after).

(** The calls made since the state [w0]. *)
Definition new_calls (w0 w : World) : list Call :=
  drop (length (calls w0)) (calls w).

(** The calls of the third loop of [update]. *)
Definition is_tracked_call (c : Call) : Prop := is_restore_call c ∨ is_sync_call c.

(** The dirty flag of the sound at [sound] is down. *)
Definition clean (sound : ptr) (w : World) : Prop :=
  ∃ s, sounds w !! sound = Some s ∧ hasChanges (m_properties s) = false.

(** The first loop of [update] relates its states by both. *)
Definition removal_step (w w' : World) : Prop :=
  kept is_removal_call w w' ∧ lists_kept w w'.

(** Since [w0] the sound manager was asked to create the native sound of
    the descriptor [s], and what it returned, if anything, was attached to
    [sceneNode]. *)
Definition attempted (w0 w : World) (sceneNode : ptr) (s : Sound) : Prop :=
  ∃ ret,
    CreateSound (Sound_name s) (Sound_filename s) STREAM (loop (m_properties s))
      PREBUFFER ret ∈ new_calls w0 w ∧
    ∀ og, ret = Some og → AttachObject sceneNode og ∈ new_calls w0 w.


(** A frame on which nothing enters or leaves the filter and every sound
    of every tracked entity has its native sound. *)
Definition steady (w : World) : Prop :=
  removedEntities (impl_entities w) = [] ∧
  addedEntities (impl_entities w) = [] ∧
  ∀ entityId sceneNodeComponent soundSourceComponent,
    (entityId, (sceneNodeComponent, soundSourceComponent)) ∈ entities (impl_entities w) →
    ∃ component,
      soundSources w !! soundSourceComponent = Some component ∧
      ∀ name sound, (name, sound) ∈ m_sounds component →
        ∃ s og, sounds w !! sound = Some s ∧ m_sound s = Some og ∧
                is_Some (natives w !! og).

(** What the third loop keeps of a steady state [w]. *)
Definition steady_since (w w1 : World) : Prop :=
  soundSources w1 = soundSources w ∧
  natives w1 = natives w ∧
  ∀ sound s og, sounds w !! sound = Some s → m_sound s = Some og →
    ∃ s1, sounds w1 !! sound = Some s1 ∧ m_sound s1 = Some og.

(** The fields [storage()] writes and [load()] reads: everything of a
    descriptor but the dirty flag and the native pointer. *)
Definition same_descriptor (s s' : Sound) : Prop :=
  m_name s' = m_name s ∧ m_filename s' = m_filename s ∧
  untouch (m_properties s') = untouch (m_properties s).

(** A container without any of the keys [Sound::load] reads. *)
Definition lacks_sound_keys (st : StorageContainer) : Prop :=
  Forall (λ key : string, st !! key = None)
    ["filename"; "name"; "playState"; "loop"; "volume"; "maxDistance";
     "rolloffFactor"; "referenceDistance"; "priority"].

(** Taking native sounds down leaves the descriptors alone and brings no
    native sound to life. *)
Definition removal_frame (w w' : World) : Prop :=
  sounds w' = sounds w ∧
  ∀ og, natives w !! og = None → natives w' !! og = None.

Definition removal_run (w w' : World) : Prop :=
  removal_step w w' ∧ removal_frame w w'.













End Predicates.

(** ** Sound: serialization and play state *)

Section SoundFacts.
Context `{!Engine}.

Lemma Sound_storage_lookups (s : Sound) :
  let st := Sound_storage s in
  st !! "filename" = Some (VString (m_filename s)) ∧
  st !! "name" = Some (VString (m_name s)) ∧
  st !! "playState" = Some (VInt16 (PlayState_to_int16 (playState (m_properties s)))) ∧
  st !! "loop" = Some (VBool (loop (m_properties s))) ∧
  st !! "volume" = Some (VFloat (volume (m_properties s))) ∧
  st !! "maxDistance" = Some (VFloat (maxDistance (m_properties s))) ∧
  st !! "rolloffFactor" = Some (VFloat (rolloffFactor (m_properties s))) ∧
  st !! "referenceDistance" = Some (VFloat (referenceDistance (m_properties s))) ∧
  st !! "priority" = Some (VUInt8 (priority (m_properties s))).
Proof.
  unfold Sound_storage, Storage.set; cbv zeta.
  repeat split; by simplify_map_eq.
Qed.

Lemma PlayState_cast_roundtrip (p : PlayState) :
  PlayState_of_int16 (PlayState_to_int16 p) = p.
Proof. by destruct p. Qed.

Lemma int16_eq (a b : int16) : int16_value a = int16_value b → a = b.
Proof.
  destruct a as [a Ha], b as [b Hb]. simpl. intros ->. f_equal. apply proof_irrel.
Qed.

(** What [load] makes of the container [storage] wrote, whatever sound
    it is loaded into: the descriptor's own fields come from the container,
    the dirty flag and the native pointer stay those of the target. *)
Lemma Sound_load_storage (s target : Sound) :
  Sound_load (Sound_storage s) target =
  mkSound
    (mkProperties (hasChanges (m_properties target))
       (playState (m_properties s)) (loop (m_properties s))
       (volume (m_properties s)) (maxDistance (m_properties s))
       (rolloffFactor (m_properties s)) (referenceDistance (m_properties s))
       (priority (m_properties s)))
    (m_sound target) (m_filename s) (m_name s).
Proof.
  destruct (Sound_storage_lookups s)
    as (Hf & Hn & Hp & Hl & Hv & Hm & Hr & Hd & Hy).
  unfold Sound_load, Storage.get_string, Storage.get_int16, Storage.get_bool,
    Storage.get_float, Storage.get_uint8.
  rewrite Hf, Hn, Hp, Hl, Hv, Hm, Hr, Hd, Hy.
  by rewrite PlayState_cast_roundtrip.
Qed.

Example loud_roundtrip :
  Sound_load (Sound_storage Examples.loud) Sound_default =
  mkSound (mkProperties Touchable_initial Pause true (F32 7) (F32 8) (F32 9)
             (F32 10) 200)
    None "loud.ogg" "loud".
Proof. apply Sound_load_storage. Qed.

(** C7. Loading a default-constructed [Sound] from the container that
    [storage()] made of a sound [s] succeeds and gives a sound with the name,
    filename, playState, loop, volume, maxDistance, rolloffFactor,
    referenceDistance and priority of [s]. *)
Theorem Sound_storage_load_roundtrip (s : Sound) :
  ∃ s', Sound_load (Sound_storage s) Sound_default = s' ∧
    Sound_name s' = Sound_name s ∧
    Sound_filename s' = Sound_filename s ∧
    playState (m_properties s') = playState (m_properties s) ∧
    loop (m_properties s') = loop (m_properties s) ∧
    volume (m_properties s') = volume (m_properties s) ∧
    maxDistance (m_properties s') = maxDistance (m_properties s) ∧
    rolloffFactor (m_properties s') = rolloffFactor (m_properties s) ∧
    referenceDistance (m_properties s') = referenceDistance (m_properties s) ∧
    priority (m_properties s') = priority (m_properties s).
Proof.
  eexists. split; [apply Sound_load_storage|]. by repeat split.
Qed.

(** C9. [play()], [pause()] and [stop()] set playState to Play, Pause and
    Stop, each raises the dirty flag, and each leaves the name, the filename
    and the other property fields as they were. *)
Theorem Sound_play_pause_stop (s : Sound) :
  (playState (m_properties (Sound_play s)) = Play ∧
   hasChanges (m_properties (Sound_play s)) = true ∧
   same_but_playState s (Sound_play s)) ∧
  (playState (m_properties (Sound_pause s)) = Pause ∧
   hasChanges (m_properties (Sound_pause s)) = true ∧
   same_but_playState s (Sound_pause s)) ∧
  (playState (m_properties (Sound_stop s)) = Stop ∧
   hasChanges (m_properties (Sound_stop s)) = true ∧
   same_but_playState s (Sound_stop s)).
Proof. unfold same_but_playState. by repeat split. Qed.

End SoundFacts.

(** ** The name-keyed map *)

Section NameMapFacts.
Context {V : Type}.
Implicit Types (m : list (string * V)) (key : string) (v : V).

Lemma find_None m key : NameMap.find key m = None ↔ key ∉ m.*1.
Proof.
  induction m as [|[k v] m IH]; simpl.
  - split; [intros _; apply not_elem_of_nil | done].
  - case_decide as Hk.
    + split; [done|]. intros Hn. exfalso. apply Hn. subst. left.
    + rewrite IH, not_elem_of_cons. split; [by intros ?|by intros [_ ?]].
Qed.

Lemma find_Some_split m key v :
  NameMap.find key m = Some v →
  ∃ l1 l2,
    m = l1 ++ (key, v) :: l2 ∧ (key ∉ l1.*1) ∧ NameMap.erase key m = l1 ++ l2.
Proof.
  induction m as [|[k x] m IH]; simpl; [done|].
  case_decide as Hk.
  - intros [= <-]. rewrite Hk. exists [], m.
    split_and!; [done|apply not_elem_of_nil|done].
  - intros Hf. destruct (IH Hf) as (l1 & l2 & -> & Hn & He).
    exists ((k, x) :: l1), l2. split_and!.
    + done.
    + simpl. rewrite not_elem_of_cons. done.
    + simpl. by rewrite He.
Qed.

Lemma find_Some_elem m key v : NameMap.find key m = Some v → (key, v) ∈ m.
Proof.
  intros Hf. destruct (find_Some_split _ _ _ Hf) as (l1 & l2 & -> & _ & _).
  apply elem_of_app. right. left.
Qed.

Lemma find_is_Some m key : key ∈ m.*1 → is_Some (NameMap.find key m).
Proof.
  intros Hin. destruct (NameMap.find key m) eqn:Hf; [done|].
  by apply find_None in Hf.
Qed.

Lemma find_app m1 m2 key :
  NameMap.find key (m1 ++ m2) =
  match NameMap.find key m1 with
  | Some v => Some v
  | None => NameMap.find key m2
  end.
Proof.
  induction m1 as [|[k x] m1 IH]; simpl; [done|]. by case_decide.
Qed.

Lemma find_emplace_new m key v :
  NameMap.find key m = None →
  NameMap.emplace key v m = m ++ [(key, v)] ∧
  NameMap.find key (NameMap.emplace key v m) = Some v.
Proof.
  intros Hf. unfold NameMap.emplace. rewrite Hf. split; [done|].
  rewrite find_app, Hf. simpl. by rewrite decide_True.
Qed.

Lemma erase_subseteq m key : NameMap.erase key m ⊆ m.
Proof.
  induction m as [|[k x] m IH]; simpl; [done|].
  case_decide.
  - by apply list_subseteq_cons.
  - intros e [->|He]%elem_of_cons; [left|right; by apply IH].
Qed.

Lemma erase_keys_NoDup m key :
  NoDup m.*1 → NoDup (NameMap.erase key m).*1 ∧ key ∉ (NameMap.erase key m).*1.
Proof.
  induction m as [|[k x] m IH]; simpl.
  - intros _. split; [constructor|apply not_elem_of_nil].
  - intros [Hk Hm]%NoDup_cons. case_decide as Hd.
    + subst. done.
    + destruct (IH Hm) as [IH1 IH2]. simpl. split.
      * apply NoDup_cons. split; [|done].
        intros Hin. apply Hk.
        apply list_elem_of_fmap in Hin as ([k' v'] & -> & Hin).
        apply list_elem_of_fmap. exists (k', v'). split; [done|].
        by apply erase_subseteq in Hin.
      * rewrite not_elem_of_cons. done.
Qed.

End NameMapFacts.

(** ** SoundSourceComponent: the sound collection *)

Section ComponentFacts.
Context `{!Engine}.
Implicit Types (h : Heap) (c : SoundSourceComponent).

Lemma make_unique_fresh (s : Sound) h p h' :
  make_unique s h = (p, h') → h !! p = None ∧ h' = <[p := s]> h.
Proof.
  unfold make_unique. intros [= <- <-]. split; [|done].
  apply not_elem_of_dom, is_fresh.
Qed.

Lemma keyed_by_name_new h : keyed_by_name h SoundSourceComponent_new.
Proof.
  split; simpl; [constructor|]. intros key p Hin. by apply elem_of_nil in Hin.
Qed.

Lemma keyed_at_most_one h c : keyed_by_name h c → at_most_one_per_name h c.
Proof.
  intros [Hnd Hk] p1 s1 p2 s2 [Hin1 Hs1] [Hin2 Hs2] Hname.
  apply list_elem_of_fmap in Hin1 as ([k1 q1] & -> & Hin1).
  apply list_elem_of_fmap in Hin2 as ([k2 q2] & -> & Hin2).
  simpl in *.
  destruct (Hk _ _ Hin1) as (s1' & Hs1' & Hk1).
  destruct (Hk _ _ Hin2) as (s2' & Hs2' & Hk2).
  assert (k1 = k2) as <- by congruence.
  apply list_elem_of_lookup in Hin1 as [i Hi].
  apply list_elem_of_lookup in Hin2 as [j Hj].
  assert (i = j) as <-.
  { apply (NoDup_lookup _ i j k1 Hnd); rewrite list_lookup_fmap.
    - by rewrite Hi.
    - by rewrite Hj. }
  congruence.
Qed.

(** One [emplace] of a freshly made sound under its own name keeps the
    shape of the collection. *)
Lemma emplace_owned_keyed h c (s : Sound) p h1 h' m' :
  keyed_by_name h c →
  make_unique s h = (p, h1) →
  emplace_owned (Sound_name s) p h1 (m_sounds c) = (h', m') →
  (NoDup m'.*1 ∧
   ∀ key q, (key, q) ∈ m' → ∃ s', h' !! q = Some s' ∧ Sound_name s' = key) ∧
  (Sound_name s ∈ (m_sounds c).*1 → m' = m_sounds c ∧ h' = h) ∧
  (Sound_name s ∉ (m_sounds c).*1 →
     m' = m_sounds c ++ [(Sound_name s, p)] ∧ h' = <[p := s]> h).
Proof.
  intros [Hnd Hk] [Hfresh ->]%make_unique_fresh. unfold emplace_owned.
  destruct (NameMap.find (Sound_name s) (m_sounds c)) as [q|] eqn:Hf.
  - intros [= <- <-]. rewrite delete_insert_eq, delete_id by done.
    split_and!; [done|done|done|].
    intros Hn. by apply find_None in Hn; rewrite Hn in Hf.
  - intros [= <- <-]. destruct (find_emplace_new _ _ p Hf) as [-> _].
    pose proof Hf as Hn%find_None.
    split_and!; [| |done|done].
    + rewrite fmap_app. apply NoDup_app. split_and!; [done| |apply NoDup_singleton].
      simpl. intros k Hin ->%list_elem_of_singleton. done.
    + intros key q [Hin|Hin%list_elem_of_singleton]%elem_of_app.
      * destruct (Hk _ _ Hin) as (s' & Hs' & Hname). exists s'. split; [|done].
        rewrite lookup_insert_ne; [done|]. intros ->. congruence.
      * injection Hin as -> ->. exists s. by rewrite lookup_insert_eq.
Qed.

Lemma addSound_keyed name filename h c p h' c' :
  keyed_by_name h c →
  SoundSourceComponent_addSound name filename h c = (p, h', c') →
  keyed_by_name h' c' ∧
  (name ∈ (m_sounds c).*1 → m_sounds c' = m_sounds c) ∧
  (name ∉ (m_sounds c).*1 →
     NameMap.find name (m_sounds c') = Some p ∧
     ∃ s, h' !! p = Some s ∧ Sound_name s = name).
Proof.
  intros Hinv. unfold SoundSourceComponent_addSound.
  destruct (make_unique _ h) as [q h1] eqn:Hmk.
  destruct (emplace_owned name q h1 (m_sounds c)) as [h2 m2] eqn:Hem.
  intros [= <- <- <-]. simpl.
  destruct (emplace_owned_keyed h c (Sound_new name filename) q h1 h2 m2 Hinv Hmk Hem)
    as (Hk & Hold & Hnew).
  split_and!; [done|by intros [-> _]%Hold|].
  intros Hn. destruct (Hnew Hn) as [-> ->]. split.
  - rewrite find_app. apply find_None in Hn as ->. simpl. by rewrite decide_True.
  - eexists. by rewrite lookup_insert_eq.
Qed.

Lemma removeSound_keyed name h c h' c' :
  keyed_by_name h c →
  SoundSourceComponent_removeSound name h c = (h', c') →
  keyed_by_name h' c'.
Proof.
  intros [Hnd Hk]. unfold SoundSourceComponent_removeSound.
  destruct (NameMap.find name (m_sounds c)) as [p|] eqn:Hf; intros [= <- <-]; [|done].
  destruct (erase_keys_NoDup (m_sounds c) name Hnd) as [Hnd' Hgone].
  split; simpl; [done|].
  intros key q Hin.
  destruct (Hk key q (erase_subseteq _ _ _ Hin)) as (s & Hs & Hname).
  exists s. split; [|done].
  rewrite lookup_delete_ne; [done|]. intros ->.
  destruct (Hk _ _ (find_Some_elem _ _ _ Hf)) as (s' & Hs' & Hname').
  apply Hgone. apply list_elem_of_fmap. exists (key, q). split; [|done].
  simpl. congruence.
Qed.

Lemma load_sounds_cons (st : StorageContainer) (l : StorageList) h
    (m : list (string * ptr)) :
  load_sounds (st :: l) h m =
  let sound := Sound_load st Sound_default in
  let '(p, h) := make_unique sound h in
  let '(h, m) := emplace_owned (Sound_name sound) p h m in
  load_sounds l h m.
Proof. done. Qed.

Lemma load_sounds_keyed (l : StorageList) h c h' m' :
  keyed_by_name h c →
  load_sounds l h (m_sounds c) = (h', m') →
  NoDup m'.*1 ∧
  ∀ key q, (key, q) ∈ m' → ∃ s', h' !! q = Some s' ∧ Sound_name s' = key.
Proof.
  revert h c. induction l as [|st l IH]; intros h c Hinv.
  - intros [= <- <-]. done.
  - rewrite load_sounds_cons. cbv zeta.
    set (s := Sound_load st Sound_default).
    destruct (make_unique s h) as [p h1] eqn:Hmk.
    destruct (emplace_owned (Sound_name s) p h1 (m_sounds c)) as [h2 m2] eqn:Hem.
    destruct (emplace_owned_keyed h c s p h1 h2 m2 Hinv Hmk Hem) as (Hk & _ & _).
    intros Hrest.
    by apply (IH h2 (mkSoundSource (base c) (m_relativeToListener c)
                       (m_addedSounds c) (m_removedSounds c) m2)).
Qed.

Lemma load_keyed storage h c h' c' :
  keyed_by_name h c →
  SoundSourceComponent_load storage h c = (h', c') →
  keyed_by_name h' c'.
Proof.
  intros Hinv. unfold SoundSourceComponent_load.
  destruct (load_sounds _ h (m_sounds c)) as [h2 m2] eqn:Hl.
  intros [= <- <-]. by eapply (load_sounds_keyed _ h c).
Qed.

(** C3, as amended. In a component whose sounds are keyed by their names,
    [addSound], [removeSound] and [load] keep the collection so, and each
    sound name identifies at most one sound the component owns.  When the
    name passed to [addSound] is already taken, the collection stays as it
    was: no second sound is owned under the name.  When the name is new, the
    pointer [addSound] returns refers to the sound the component owns under
    that name. *)
Theorem sound_names_stay_unique h c :
  keyed_by_name h c →
  (∀ name filename p h' c',
     SoundSourceComponent_addSound name filename h c = (p, h', c') →
     keyed_by_name h' c' ∧ at_most_one_per_name h' c' ∧
     (name ∈ (m_sounds c).*1 → m_sounds c' = m_sounds c) ∧
     (name ∉ (m_sounds c).*1 →
        NameMap.find name (m_sounds c') = Some p ∧
        ∃ s, h' !! p = Some s ∧ Sound_name s = name)) ∧
  (∀ name h' c',
     SoundSourceComponent_removeSound name h c = (h', c') →
     keyed_by_name h' c' ∧ at_most_one_per_name h' c') ∧
  (∀ storage h' c',
     SoundSourceComponent_load storage h c = (h', c') →
     keyed_by_name h' c' ∧ at_most_one_per_name h' c').
Proof.
  intros Hinv. split_and!.
  - intros name filename p h' c' Hadd.
    destruct (addSound_keyed _ _ _ _ _ _ _ Hinv Hadd) as (Hk & Hold & Hnew).
    split_and!; [done|by apply keyed_at_most_one|done|done].
  - intros name h' c' Hrm.
    pose proof (removeSound_keyed _ _ _ _ _ Hinv Hrm). eauto using keyed_at_most_one.
  - intros storage h' c' Hld.
    pose proof (load_keyed _ _ _ _ _ Hinv Hld). eauto using keyed_at_most_one.
Qed.

(** C10. [removeSound(name)] with a name the component does not hold
    returns the heap and the component as they were.  With a name it holds,
    the first and only entry of that name leaves [m_sounds], its sound is the
    one pointer appended to [m_removedSounds] and the one object that leaves
    the heap; the other entries, the other sounds and the other members stay
    as they were. *)
Theorem removeSound_exactly_one name h c :
  (name ∉ (m_sounds c).*1 → SoundSourceComponent_removeSound name h c = (h, c)) ∧
  (name ∈ (m_sounds c).*1 →
   ∃ p before after,
     m_sounds c = before ++ (name, p) :: after ∧
     (name ∉ before.*1) ∧
     SoundSourceComponent_removeSound name h c =
       (delete p h,
        mkSoundSource (base c) (m_relativeToListener c) (m_addedSounds c)
          (m_removedSounds c ++ [p]) (before ++ after)) ∧
     (NoDup (m_sounds c).*1 → name ∉ (before ++ after).*1) ∧
     ∀ q, q ≠ p → delete p h !! q = h !! q).
Proof.
  unfold SoundSourceComponent_removeSound. split.
  - intros Hn%find_None. by rewrite Hn.
  - intros [p Hf]%find_is_Some. rewrite Hf.
    destruct (find_Some_split _ _ _ Hf) as (before & after & Hm & Hb & He).
    exists p, before, after. rewrite He. split_and!; [done|done|done| |].
    + intros Hnd. rewrite <- He. by apply erase_keys_NoDup.
    + intros q Hq. by rewrite lookup_delete_ne.
Qed.

(** C1, what the code does instead. The container [storage()] returns is
    the base class's with the key relativeToListener set, whatever sounds
    the component holds; when the base class wrote no key named sounds,
    loading it into a fresh component restores the flag and leaves the
    component without any sound. *)
Theorem component_roundtrip_loses_sounds h c storage h0 :
  Component_storage (base c) !! "sounds" = None →
  SoundSourceComponent_storage h c = Ok storage →
  SoundSourceComponent_load storage h0 SoundSourceComponent_new =
    (h0, mkSoundSource (Component_load storage Component_new)
           (m_relativeToListener c) [] [] []).
Proof.
  intros Hbase. unfold SoundSourceComponent_storage.
  destruct (mapM (stored_sound h) (m_sounds c)) as [l|e]; simpl; [|done].
  intros [= <-]. unfold SoundSourceComponent_load, Storage.get_list, Storage.get_bool,
    Storage.set.
  rewrite (lookup_insert_ne _ "relativeToListener" "sounds") by done.
  by rewrite Hbase, lookup_insert_eq.
Qed.

End ComponentFacts.

Section ComponentExamples.
Local Existing Instance plain_engine.
Import Examples.

Lemma sound_names_stay_unique_witness :
  keyed_by_name one_sound_heap one_sound_component ∧
  NameMap.find "hum" (m_sounds one_sound_component) = Some one_sound.1.1 ∧
  (∀ p h' c',
     SoundSourceComponent_addSound "hum" "again.ogg" one_sound_heap one_sound_component
       = (p, h', c') →
     keyed_by_name h' c' ∧ at_most_one_per_name h' c' ∧
     m_sounds c' = m_sounds one_sound_component) ∧
  (∀ h' c',
     SoundSourceComponent_removeSound "hum" one_sound_heap one_sound_component
       = (h', c') →
     keyed_by_name h' c' ∧ at_most_one_per_name h' c') ∧
  (∃ h' c',
     SoundSourceComponent_load storage_with_sounds one_sound_heap one_sound_component
       = (h', c') ∧
     length (m_sounds c') = 2%nat ∧
     keyed_by_name h' c' ∧ at_most_one_per_name h' c').
Proof.
  assert (keyed_by_name ∅ SoundSourceComponent_new) as Hnew.
  { split; simpl; [constructor|]. intros key p Hin. inversion Hin. }
  destruct (sound_names_stay_unique ∅ SoundSourceComponent_new Hnew) as [Hadd _].
  destruct (Hadd "hum" "hum.ogg" one_sound.1.1 one_sound_heap one_sound_component
              eq_refl) as (Hk & _ & _ & Hfresh).
  split; [exact Hk|].
  split; [apply Hfresh; simpl; intros Hin; inversion Hin|].
  destruct (sound_names_stay_unique one_sound_heap one_sound_component Hk)
    as (Htaken & Hremove & Hload).
  split_and!.
  - intros p h' c' Hagain.
    destruct (Htaken _ _ _ _ _ Hagain) as (Hk' & Hone & Hsame & _).
    split_and!; [exact Hk'|exact Hone|]. apply Hsame. vm_compute. left.
  - exact (Hremove "hum").
  - destruct (SoundSourceComponent_load storage_with_sounds one_sound_heap
                one_sound_component) as [h' c'] eqn:Hrun.
    exists h', c'. split; [reflexivity|].
    split; [|exact (Hload _ _ _ Hrun)].
    vm_compute in Hrun. injection Hrun as _ <-. reflexivity.
Defined.

(** C3, as the spec words it, fails: on a component that holds a sound
    named hum, [addSound("hum", ...)] returns a pointer to a sound that the
    component does not own and that is no longer alive. *)
Lemma addSound_taken_name_returns_unowned :
  "hum" ∈ (m_sounds one_sound_component).*1 ∧
  ¬ addSound_returns_owned "hum" "again.ogg" one_sound_heap one_sound_component.
Proof.
  split.
  - vm_compute. left.
  - unfold addSound_returns_owned. vm_compute. intros [Hfind _]. discriminate Hfind.
Qed.

Lemma removeSound_exactly_one_witness :
  SoundSourceComponent_removeSound "drone" one_sound_heap one_sound_component =
    (one_sound_heap, one_sound_component) ∧
  ∃ p, m_sounds one_sound_component = [("hum", p)] ∧
       SoundSourceComponent_removeSound "hum" one_sound_heap one_sound_component =
         (delete p one_sound_heap, mkSoundSource tt true [p] [p] []).
Proof.
  split.
  - apply (removeSound_exactly_one "drone" one_sound_heap one_sound_component).
    vm_compute. intros Hin. inversion Hin as [|? ? ? Hin']. inversion Hin'.
  - destruct (removeSound_exactly_one "hum" one_sound_heap one_sound_component)
      as [_ Hpresent].
    destruct Hpresent as (p & before & after & Hm & Hb & Heq & _).
    { vm_compute. left. }
    exists p. destruct before as [|[k q] before].
    + injection Hm as <- <-. split; [reflexivity|exact Heq].
    + exfalso. apply Hb. injection Hm as <- _ _. left.
Defined.

Lemma component_roundtrip_loses_sounds_witness :
  m_sounds one_sound_component = [("hum", 1%positive)] ∧
  SoundSourceComponent_storage one_sound_heap one_sound_component = Ok one_sound_storage ∧
  SoundSourceComponent_load one_sound_storage ∅ SoundSourceComponent_new =
    (∅, mkSoundSource tt true [] [] []).
Proof.
  split; [reflexivity|]. split; [vm_compute; reflexivity|].
  apply (component_roundtrip_loses_sounds one_sound_heap one_sound_component
           one_sound_storage ∅); [reflexivity | vm_compute; reflexivity].
Defined.

End ComponentExamples.

(** ** The system: running the monad *)

Section MonadFacts.
Context `{!Engine}.

Lemma bind_Ok {A B} (m : M A) (k : A → M B) w b w2 :
  bind m k w = Ok (b, w2) ↔ ∃ a w1, m w = Ok (a, w1) ∧ k a w1 = Ok (b, w2).
Proof.
  unfold bind. split.
  - destruct (m w) as [[a w1]|e]; [|done]. eauto.
  - intros (a & w1 & -> & Hk). done.
Qed.

Lemma deref_Ok {A} (store : World → gmap ptr A) p w a w' :
  deref store p w = Ok (a, w') ↔ store w !! p = Some a ∧ w' = w.
Proof.
  unfold deref. destruct (store w !! p); split; try done.
  - by intros [= -> ->].
  - by intros [[= ->] ->].
  - by intros [? _].
Qed.

Lemma for_each_cons {A} (body : A → M unit) x l w u w2 :
  for_each (x :: l) body w = Ok (u, w2) ↔
  ∃ w1, body x w = Ok (tt, w1) ∧ for_each l body w1 = Ok (u, w2).
Proof.
  simpl. rewrite bind_Ok. split.
  - intros ([] & w1 & ? & ?). eauto.
  - intros (w1 & ? & ?). eauto.
Qed.

(** A loop carries a relation between its first and its last state along
    when every turn does and the relation composes; and a fact per element,
    when the element's turn establishes it, knowing how its state relates
    to the first one, and the later turns keep it. *)
Lemma for_each_rel_each {A} (R : World → World → Prop) (P : A → World → Prop)
    (body : A → M unit) l w w' :
  (∀ w, R w w) →
  (∀ w1 w2 w3, R w1 w2 → R w2 w3 → R w1 w3) →
  (∀ x w1 w2, x ∈ l → R w w1 → body x w1 = Ok (tt, w2) → R w1 w2 ∧ P x w2) →
  (∀ x w1 w2, P x w1 → R w1 w2 → P x w2) →
  for_each l body w = Ok (tt, w') → R w w' ∧ ∀ x, x ∈ l → P x w'.
Proof.
  intros Hrefl Htrans Hbody Hkeep.
  assert (∀ l' w1 w2, l' ⊆ l → R w w1 → for_each l' body w1 = Ok (tt, w2) →
            R w1 w2 ∧ ∀ x, x ∈ l' → P x w2) as Hgen.
  { induction l' as [|y l' IH]; intros w1 w2 Hsub Hw1.
    - intros [= <-]. split; [apply Hrefl|]. intros x Hx. by apply elem_of_nil in Hx.
    - intros (w3 & Hy & Hrest)%for_each_cons.
      destruct (Hbody y w1 w3) as [Hstep Hp]; [apply Hsub; left|done|done|].
      destruct (IH w3 w2) as [Hrun Hall];
        [intros z Hz; apply Hsub; by right|by apply (Htrans _ w1)|done|].
      split; [by apply (Htrans _ w3)|].
      intros x [->|Hx]%elem_of_cons; [by apply (Hkeep _ w3)|by apply Hall]. }
  intros Hrun. destruct (Hgen l w w') as [? ?]; done.
Qed.

(** A loop returns when every turn does, from any state an invariant
    allows. *)
Lemma for_each_returns {A} (J : World → Prop) (body : A → M unit) l w :
  J w →
  (∀ x w1, x ∈ l → J w1 → ∃ w2, body x w1 = Ok (tt, w2) ∧ J w2) →
  ∃ w', for_each l body w = Ok (tt, w') ∧ J w'.
Proof.
  revert w. induction l as [|x l IH]; intros w Hw Hbody.
  - by exists w.
  - destruct (Hbody x w) as (w1 & Hx & Hw1); [left|done|].
    destruct (IH w1 Hw1) as (w' & Hl & Hw').
    { intros y w2 Hy Hw2. apply Hbody; [by right|done]. }
    exists w'. split; [|done]. apply for_each_cons. eauto.
Qed.

End MonadFacts.

(** ** The system: restoring a sound *)

Section RestoreFacts.
Context `{!Engine}.

(** C4. When the entity's [OgreSceneNodeComponent] has a null scene node,
    [restoreSound] returns with the whole state as it was: no call is made
    (nothing is created or attached), and the sound descriptor, the native
    sounds and the system's map are untouched. *)
Theorem restoreSound_null_sceneNode entityId sceneNodeComponent sound w c :
  sceneNodes w !! sceneNodeComponent = Some c →
  m_sceneNode c = None →
  Impl_restoreSound entityId sceneNodeComponent sound w = Ok (tt, w).
Proof.
  intros Hc Hnull. unfold Impl_restoreSound, bind, deref. by rewrite Hc, Hnull.
Qed.

(** C5. When the sound manager's [createSound] returns null inside
    [restoreSound], the function returns normally; the only trace of the
    attempt is the console line and the [createSound] call itself.  The
    sound descriptors (so the sound's [m_sound], null if it was null), the
    native sounds with their attachments and the system's map are as they
    were, and no [attachObject] call is made. *)
Theorem restoreSound_creation_fails entityId sceneNodeComponent sound w c sceneNode s :
  sceneNodes w !! sceneNodeComponent = Some c →
  m_sceneNode c = Some sceneNode →
  sounds w !! sound = Some s →
  createSound_succeeds (natives w) (Sound_name s) (Sound_filename s) = false →
  ∃ w', Impl_restoreSound entityId sceneNodeComponent sound w = Ok (tt, w') ∧
    sounds w' = sounds w ∧
    (m_sound s = None → ∃ s', sounds w' !! sound = Some s' ∧ m_sound s' = None) ∧
    impl_sounds w' = impl_sounds w ∧
    natives w' = natives w ∧
    soundSources w' = soundSources w ∧
    sceneNodes w' = sceneNodes w ∧
    impl_entities w' = impl_entities w ∧
    calls w' = calls w ++
      [CoutLooping (loop (m_properties s));
       CreateSound (Sound_name s) (Sound_filename s) STREAM (loop (m_properties s))
         PREBUFFER None].
Proof.
  intros Hc Hnode Hs Hfail. eexists. split.
  - unfold Impl_restoreSound, bind, deref, call, modify, createSound.
    rewrite Hc, Hnode. simpl. rewrite Hs. simpl. rewrite Hfail. reflexivity.
  - simpl. split_and!; try done.
    + intros Hnone. by exists s.
    + by rewrite <- app_assoc.
Qed.

Lemma restoreSound_cases entityId sceneNodeComponent sound w w' :
  Impl_restoreSound entityId sceneNodeComponent sound w = Ok (tt, w') →
  ∃ c, sceneNodes w !! sceneNodeComponent = Some c ∧
    ((m_sceneNode c = None ∧ w' = w) ∨
     ∃ sceneNode s,
       m_sceneNode c = Some sceneNode ∧ sounds w !! sound = Some s ∧
       ((createSound_succeeds (natives w) (Sound_name s) (Sound_filename s) = false ∧
         w' = set_calls
                (calls w ++
                   [CoutLooping (loop (m_properties s));
                    CreateSound (Sound_name s) (Sound_filename s) STREAM
                      (loop (m_properties s)) PREBUFFER None]) w) ∨
        (createSound_succeeds (natives w) (Sound_name s) (Sound_filename s) = true ∧
         w' = restored entityId sound s sceneNode (fresh (dom (natives w))) w))).
Proof.
  unfold Impl_restoreSound. intros (c & w1 & [Hc ->]%deref_Ok & Hrun)%bind_Ok.
  exists c. split; [done|].
  destruct (m_sceneNode c) as [sceneNode|]; [right|left; by injection Hrun as <-].
  apply bind_Ok in Hrun as (s & w1 & [Hs ->]%deref_Ok & Hrun).
  exists sceneNode, s. split_and!; [done|done|].
  revert Hrun. unfold bind, call, modify, createSound, attachObject, deref, impl_sounds_at.
  simpl. destruct (createSound_succeeds _ _ _); simpl.
  - intros Hrun. right. split; [done|]. revert Hrun.
    destruct (impl_sounds w !! entityId) as [m|] eqn:Hm;
      unfold bind, modify, call, set_impl_sounds, set_sounds, set_calls, set_natives;
      simpl; rewrite lookup_insert_eq; simpl; intros [= <-]; unfold restored; f_equal.
    all: rewrite ?Hm; simpl; try done.
    all: try by rewrite insert_insert_eq.
    all: by rewrite <- !app_assoc.
  - intros [= <-]. left. split; [done|]. unfold set_calls. simpl.
    by rewrite <- app_assoc.
Qed.

End RestoreFacts.

(** ** The system: relations between states *)

Section RelationFacts.
Context `{!Engine}.

Lemma sync_calls_untouch og (p p' : Properties) :
  untouch p = untouch p' → sync_calls og p = sync_calls og p'.
Proof. destruct p, p'. unfold untouch, sync_calls. simpl. by intros [= -> -> -> -> -> -> ->]. Qed.

Lemma kept_refl P w : kept P w w.
Proof.
  split_and!; try done.
  - intros p s Hs. by exists s.
  - exists []. by rewrite app_nil_r.
Qed.

Lemma kept_trans P w1 w2 w3 : kept P w1 w2 → kept P w2 w3 → kept P w1 w3.
Proof.
  intros (Ha1 & Hb1 & Hc1 & Hs1 & t1 & Ht1 & HP1) (Ha2 & Hb2 & Hc2 & Hs2 & t2 & Ht2 & HP2).
  split_and!; try congruence.
  - intros p s Hs. destruct (Hs1 p s Hs) as (s' & Hs' & ? & ? & ?).
    destruct (Hs2 p s' Hs') as (s'' & Hs'' & ? & ? & ?).
    exists s''. split_and!; congruence.
  - exists (t1 ++ t2). split; [|by apply Forall_app].
    by rewrite Ht2, Ht1, app_assoc.
Qed.

Lemma kept_weaken (P Q : Call → Prop) w w' :
  (∀ c, P c → Q c) → kept P w w' → kept Q w w'.
Proof.
  intros HPQ (? & ? & ? & ? & t & ? & HP). split_and!; try done.
  exists t. split; [done|]. by eapply Forall_impl.
Qed.

Lemma lists_kept_refl w : lists_kept w w.
Proof. done. Qed.

Lemma lists_kept_trans w1 w2 w3 : lists_kept w1 w2 → lists_kept w2 w3 → lists_kept w1 w3.
Proof. intros H1 H2 e. by rewrite H2, H1. Qed.

Lemma synced_refl P w : synced P w w.
Proof.
  split_and!; try done. exists []. rewrite app_nil_r. split_and!; [done|done|].
  intros p s Hs. exists s. split_and!; try done. congruence.
Qed.

Lemma synced_trans P w1 w2 w3 : synced P w1 w2 → synced P w2 w3 → synced P w1 w3.
Proof.
  intros (Ha1 & Hb1 & Hc1 & t1 & Ht1 & HP1 & Hs1) (Ha2 & Hb2 & Hc2 & t2 & Ht2 & HP2 & Hs2).
  split_and!; try congruence.
  exists (t1 ++ t2). split_and!.
  - by rewrite Ht2, Ht1, app_assoc.
  - by apply Forall_app.
  - intros p s Hs.
    destruct (Hs1 p s Hs) as (s' & Hs' & Hn1 & Hf1 & Hu1 & Hog1 & Hlow1 & Hsync1).
    destruct (Hs2 p s' Hs') as (s'' & Hs'' & Hn2 & Hf2 & Hu2 & Hog2 & Hlow2 & Hsync2).
    exists s''. split_and!; try congruence; [by auto|by auto|].
    intros Hdirty Hclean.
    destruct (hasChanges (m_properties s')) eqn:Hmid.
    + destruct (Hsync2 eq_refl Hclean) as (og & before & after & Hog & ->).
      exists og, (t1 ++ before), after. split; [done|].
      rewrite (sync_calls_untouch og _ _ Hu1). by rewrite <- !app_assoc.
    + destruct (Hsync1 Hdirty eq_refl) as (og & before & after & Hog & ->).
      exists og, before, (after ++ t2). split; [by auto|].
      by rewrite <- !app_assoc.
Qed.

(** A step that leaves the sound descriptors alone. *)
Lemma kept_synced (P : Call → Prop) w w' :
  kept P w w' → (∀ p s, sounds w !! p = Some s → sounds w' !! p = Some s) →
  synced P w w'.
Proof.
  intros (? & ? & ? & _ & t & ? & ?) Hsame. split_and!; try done.
  exists t. split_and!; try done. intros p s Hs. exists s.
  split_and!; try done; [by eauto|congruence].
Qed.

End RelationFacts.

(** ** The system: what each step does *)

Section StepFacts.
Context `{!Engine}.

Lemma new_calls_app w0 w t : calls w = calls w0 ++ t → new_calls w0 w = t.
Proof. intros Ht. unfold new_calls. by rewrite Ht, drop_app_length. Qed.

Lemma new_calls_more w0 w1 w2 t c :
  calls w2 = calls w1 ++ t → c ∈ new_calls w0 w1 → c ∈ new_calls w0 w2.
Proof.
  unfold new_calls. intros -> Hc. rewrite drop_app. apply elem_of_app. by left.
Qed.

Lemma restoreSound_kept entityId sceneNodeComponent sound w w' :
  Impl_restoreSound entityId sceneNodeComponent sound w = Ok (tt, w') →
  kept is_restore_call w w'.
Proof.
  intros (c & Hc & [[_ ->]|(node & s & Hnode & Hs & [[_ ->]|[_ ->]])])%restoreSound_cases.
  - apply kept_refl.
  - split_and!; try done.
    + intros p s' Hs'. by exists s'.
    + eexists. split; [done|]. by repeat constructor.
  - split_and!; try done.
    + intros p s' Hs'. simpl. destruct (decide (p = sound)) as [->|Hne].
      * rewrite lookup_insert_eq. eexists. split; [done|]. simpl.
        assert (s' = s) as -> by congruence. done.
      * rewrite lookup_insert_ne by done. by exists s'.
    + eexists. split; [done|]. by repeat constructor.
Qed.

Lemma restoreSound_synced entityId sceneNodeComponent sound w w' s :
  sounds w !! sound = Some s → m_sound s = None →
  Impl_restoreSound entityId sceneNodeComponent sound w = Ok (tt, w') →
  synced is_restore_call w w'.
Proof.
  intros Hs Hnone Hrun. pose proof (restoreSound_kept _ _ _ _ _ Hrun) as Hkept.
  apply restoreSound_cases in Hrun
    as (c & Hc & [[_ ->]|(node & s1 & Hnode & Hs1 & [[_ ->]|[_ ->]])]).
  - apply synced_refl.
  - by apply kept_synced.
  - destruct Hkept as (? & ? & ? & _ & t & Ht & HP). split_and!; try done.
    exists t. split_and!; try done. intros p s' Hs'. simpl.
    destruct (decide (p = sound)) as [->|Hne].
    + rewrite lookup_insert_eq. eexists. split; [done|]. simpl.
      assert (s' = s) as -> by congruence. assert (s1 = s) as -> by congruence.
      split_and!; try done; congruence.
    + rewrite lookup_insert_ne by done. exists s'. split_and!; try done. congruence.
Qed.

Lemma sound_call_Ok og c w u w' :
  sound_call og c w = Ok (u, w') →
  is_Some (natives w !! og) ∧ w' = set_calls (calls w ++ [c]) w.
Proof.
  unfold sound_call. intros (o & w1 & [Ho ->]%deref_Ok & Hc)%bind_Ok.
  injection Hc as <- <-. by eauto.
Qed.

(** The cases of the [switch]. *)
Lemma PlayState_switch_cases {A} (P : A → Prop) state (play pause stop default : A) :
  P play → P pause → P stop → P default →
  P (PlayState_switch state play pause stop default).
Proof.
  intros ? ? ? ?. unfold PlayState_switch.
  destruct (int16_value (PlayState_to_int16 state)) as [|[[?|?|]|[?|?|]|]|?]; done.
Qed.

Lemma set_calls_same w : set_calls (calls w ++ []) w = w.
Proof. destruct w. unfold set_calls. simpl. by rewrite app_nil_r. Qed.

Lemma play_switch_Ok og state w u w' :
  PlayState_switch state (sound_call og (CallPlay og)) (sound_call og (CallPause og))
    (sound_call og (CallStop og)) (ret tt) w = Ok (u, w') →
  w' = set_calls (calls w ++ play_calls og state) w.
Proof.
  unfold PlayState_switch, play_calls, PlayState_switch.
  destruct (int16_value (PlayState_to_int16 state)) as [|[[?|?|]|[?|?|]|]|?].
  all: try (intros [= <-]; by rewrite set_calls_same).
  all: by intros [_ ->]%sound_call_Ok.
Qed.

Lemma play_switch_returns og state w :
  is_Some (natives w !! og) →
  PlayState_switch state (sound_call og (CallPlay og)) (sound_call og (CallPause og))
    (sound_call og (CallStop og)) (ret tt) w =
  Ok (tt, set_calls (calls w ++ play_calls og state) w).
Proof.
  intros [o Ho]. unfold PlayState_switch, play_calls, PlayState_switch.
  destruct (int16_value (PlayState_to_int16 state)) as [|[[?|?|]|[?|?|]|]|?].
  all: try (unfold ret; by rewrite set_calls_same).
  all: unfold sound_call, bind, deref, call, modify; by rewrite Ho.
Qed.

Lemma sync_properties_Ok sound w w' :
  sync_properties sound w = Ok (tt, w') →
  ∃ s og, sounds w !! sound = Some s ∧ m_sound s = Some og ∧
    w' = set_sounds
           (<[sound := mkSound (untouch (m_properties s)) (m_sound s)
                         (m_filename s) (m_name s)]> (sounds w))
           (set_calls (calls w ++ sync_calls og (m_properties s)) w).
Proof.
  unfold sync_properties. intros (s & w1 & [Hs ->]%deref_Ok & Hrun)%bind_Ok.
  destruct (m_sound s) as [og|] eqn:Hog; [|done].
  exists s, og. split_and!; [done|done|].
  apply bind_Ok in Hrun as (? & w1 & [_ ->]%sound_call_Ok & Hrun).
  apply bind_Ok in Hrun as (? & w2 & [_ ->]%sound_call_Ok & Hrun).
  apply bind_Ok in Hrun as (? & w3 & [_ ->]%sound_call_Ok & Hrun).
  apply bind_Ok in Hrun as (? & w4 & [_ ->]%sound_call_Ok & Hrun).
  apply bind_Ok in Hrun as (? & w5 & [_ ->]%sound_call_Ok & Hrun).
  apply bind_Ok in Hrun as (? & w6 & Hplay & Hrun).
  assert (w6 = set_calls (calls w ++ sync_calls og (m_properties s)) w) as ->.
  { apply play_switch_Ok in Hplay as ->. unfold sync_calls, set_calls. simpl.
    by rewrite <- !app_assoc. }
  unfold modify in Hrun. injection Hrun as <-. rewrite Hog. reflexivity.
Qed.

Lemma Forall_sync_calls og p : Forall is_sync_call (sync_calls og p).
Proof.
  unfold sync_calls, play_calls. apply Forall_app. split; [by repeat constructor|].
  apply (PlayState_switch_cases (Forall is_sync_call)); by repeat constructor.
Qed.

Lemma sync_properties_synced sound w w' :
  sync_properties sound w = Ok (tt, w') →
  synced is_sync_call w w' ∧
  ∃ s', sounds w' !! sound = Some s' ∧ hasChanges (m_properties s') = false.
Proof.
  intros (s & og & Hs & Hog & ->)%sync_properties_Ok. split.
  - split_and!; try done. eexists. split_and!; [done|apply Forall_sync_calls|].
    intros p s' Hs'. simpl. destruct (decide (p = sound)) as [->|Hne].
    + rewrite lookup_insert_eq. eexists. split; [done|]. simpl.
      assert (s' = s) as -> by congruence.
      split_and!; try done. intros _ _. exists og, [], []. by rewrite app_nil_r.
    + rewrite lookup_insert_ne by done. exists s'. split_and!; try done. congruence.
  - simpl. rewrite lookup_insert_eq. by eexists.
Qed.

Lemma synced_weaken (P Q : Call → Prop) w w' :
  (∀ c, P c → Q c) → synced P w w' → synced Q w w'.
Proof.
  intros HPQ (? & ? & ? & t & ? & HP & ?). split_and!; try done.
  exists t. split_and!; try done. by eapply Forall_impl.
Qed.

Lemma clean_synced P sound w w' : clean sound w → synced P w w' → clean sound w'.
Proof.
  intros (s & Hs & Hclean) (_ & _ & _ & t & _ & _ & Hsounds).
  destruct (Hsounds sound s Hs) as (s' & Hs' & _ & _ & _ & _ & Hlow & _).
  exists s'. auto.
Qed.

Lemma update_sound_synced entityId sceneNodeComponent sound w w' :
  update_sound entityId sceneNodeComponent sound w = Ok (tt, w') →
  synced is_tracked_call w w' ∧ clean sound w'.
Proof.
  unfold update_sound. intros (s & w0 & [Hs ->]%deref_Ok & Hrun)%bind_Ok.
  apply bind_Ok in Hrun as ([] & w1 & Hrestore & Hrun).
  assert (synced is_tracked_call w w1) as Hfirst.
  { destruct (m_sound s) eqn:Hog.
    - injection Hrestore as <-. apply synced_refl.
    - apply (synced_weaken is_restore_call); [by left|].
      by eapply restoreSound_synced. }
  apply bind_Ok in Hrun as (s1 & w2 & [Hs1 ->]%deref_Ok & Hrun).
  destruct (hasChanges (m_properties s1)) eqn:Hdirty.
  - apply sync_properties_synced in Hrun as [Hsync Hclean]. split; [|done].
    apply (synced_trans _ _ w1); [done|].
    apply (synced_weaken is_sync_call); [by right|done].
  - injection Hrun as <-. split; [done|]. by exists s1.
Qed.

(** The third loop: every sound of every tracked entity ends up clean. *)
Lemma update_tracked_synced w w' :
  update_tracked w = Ok (tt, w') →
  synced is_tracked_call w w' ∧ ∀ sound, tracked w sound → clean sound w'.
Proof.
  unfold update_tracked. intros (l & w0 & Hget & Hloop)%bind_Ok.
  injection Hget as <- <-.
  apply (for_each_rel_each (synced is_tracked_call)
           (λ value w2, ∀ component name sound,
              soundSources w !! value.2.2 = Some component →
              (name, sound) ∈ m_sounds component → clean sound w2)) in Hloop
    as [Hrun Hall].
  - split; [done|].
    intros sound (e & snc & ssc & component & name & Hin & Hcomp & Hsound).
    by apply (Hall _ Hin component name).
  - apply synced_refl.
  - apply synced_trans.
  - intros [e [snc ssc]] w1 w2 _ Hw1. simpl.
    intros (component & w3 & [Hc ->]%deref_Ok & Hinner)%bind_Ok.
    apply (for_each_rel_each (synced is_tracked_call)
             (λ pair w2, clean pair.2 w2)) in Hinner as [Hrun Hall].
    + split; [done|]. intros component' name sound Hc' Hin.
      destruct Hw1 as (Hsrc & _). rewrite Hsrc in Hc.
      assert (component' = component) as -> by congruence.
      apply (Hall _ Hin).
    + apply synced_refl.
    + apply synced_trans.
    + intros [name sound] w4 w5 _ _ Hturn. simpl in *.
      by apply update_sound_synced in Hturn.
    + intros pair w4 w5 Hclean Hstep. by eapply clean_synced.
  - intros value w1 w2 Hall Hstep component name sound Hc Hin.
    eapply clean_synced; [|done]. by eapply Hall.
Qed.

Lemma new_calls_since w0 w1 w2 t c :
  calls w1 = calls w0 ++ t → c ∈ new_calls w1 w2 → c ∈ new_calls w0 w2.
Proof.
  unfold new_calls. intros ->. rewrite length_app, <- drop_drop.
  intros Hc. eapply subseteq_drop, Hc.
Qed.

Lemma removal_step_refl w : removal_step w w.
Proof. split; [apply kept_refl|apply lists_kept_refl]. Qed.

Lemma removal_step_trans w1 w2 w3 :
  removal_step w1 w2 → removal_step w2 w3 → removal_step w1 w3.
Proof.
  intros [? ?] [? ?]. split; [by eapply kept_trans|by eapply lists_kept_trans].
Qed.

Lemma removeSound_Ok og w w' :
  Impl_removeSound (Some og) w = Ok (tt, w') →
  ∃ o sceneNode, natives w !! og = Some o ∧ og_parent o = Some sceneNode ∧
    w' = set_calls (calls w ++ [DetachObject sceneNode og; DestroySound og])
           (set_natives (delete og (natives w)) w).
Proof.
  unfold Impl_removeSound. intros (o & w0 & [Ho ->]%deref_Ok & Hrun)%bind_Ok.
  destruct (og_parent o) as [sceneNode|] eqn:Hparent; [|done].
  exists o, sceneNode. split_and!; [done|done|].
  revert Hrun. unfold bind, detachObject, destroySound, bind, deref, modify, call.
  rewrite Ho. simpl. rewrite lookup_insert_eq. intros [= <-].
  unfold set_calls, set_natives. simpl. f_equal.
  - by rewrite delete_insert_eq.
  - by rewrite <- app_assoc.
Qed.

Lemma removeSound_step og w w' :
  Impl_removeSound (Some og) w = Ok (tt, w') →
  removal_step w w' ∧ DestroySound og ∈ new_calls w w'.
Proof.
  intros (o & sceneNode & _ & _ & ->)%removeSound_Ok. split; [split|].
  - split_and!; try done.
    + intros p s Hs. by exists s.
    + eexists. split; [done|]. by repeat constructor.
  - done.
  - erewrite new_calls_app; [|done]. right. left.
Qed.

Lemma impl_sounds_at_Ok entityId w m w' :
  impl_sounds_at entityId w = Ok (m, w') →
  m = default [] (impl_sounds w !! entityId) ∧ calls w' = calls w ∧
  removal_step w w'.
Proof.
  unfold impl_sounds_at. destruct (impl_sounds w !! entityId) as [m'|] eqn:Hm.
  - intros [= <- <-]. split_and!; [done|done|apply removal_step_refl].
  - intros [= <- <-]. split_and!; [done|done|]. split.
    + split_and!; try done.
      * intros p s Hs. by exists s.
      * exists []. by rewrite app_nil_r.
    + intros e. simpl. destruct (decide (e = entityId)) as [->|Hne].
      * by rewrite lookup_insert_eq, Hm.
      * by rewrite lookup_insert_ne.
Qed.

Lemma removal_step_more w0 w1 w2 c :
  removal_step w1 w2 → c ∈ new_calls w0 w1 → c ∈ new_calls w0 w2.
Proof. intros [(_ & _ & _ & _ & t & Ht & _) _]. by apply (new_calls_more _ _ _ t). Qed.

Lemma removeSoundsForEntity_step entityId w w' :
  Impl_removeSoundsForEntity entityId w = Ok (tt, w') →
  removal_step w w' ∧
  ∀ name og, (name, og) ∈ default [] (impl_sounds w !! entityId) →
    DestroySound og ∈ new_calls w w'.
Proof.
  unfold Impl_removeSoundsForEntity.
  intros (m & w0 & (-> & Hcalls & Hfirst)%impl_sounds_at_Ok & Hloop)%bind_Ok.
  apply (for_each_rel_each removal_step
           (λ pair w2, DestroySound pair.2 ∈ new_calls w0 w2)) in Hloop
    as [Hrun Hall].
  - split; [by eapply removal_step_trans|].
    intros name og Hin. apply (new_calls_since w w0 w' []).
    + by rewrite app_nil_r.
    + apply (Hall _ Hin).
  - apply removal_step_refl.
  - apply removal_step_trans.
  - intros [name og] w1 w2 _ Hw1 [Hstep Hc]%removeSound_step. split; [done|].
    destruct Hw1 as [(_ & _ & _ & _ & t & Ht & _) _]. by eapply new_calls_since.
  - intros pair w1 w2 Hc Hstep. by eapply removal_step_more.
Qed.

(** The first loop: every native sound the system's map lists for a removed
    entity is destroyed. *)
Lemma update_removed_step w w' :
  update_removed w = Ok (tt, w') →
  removal_step w w' ∧
  ∀ entityId name og,
    entityId ∈ removedEntities (impl_entities w) →
    (name, og) ∈ default [] (impl_sounds w !! entityId) →
    DestroySound og ∈ new_calls w w'.
Proof.
  unfold update_removed. intros (l & w0 & Hget & Hloop)%bind_Ok.
  injection Hget as <- <-.
  apply (for_each_rel_each removal_step
           (λ entityId w2, ∀ name og,
              (name, og) ∈ default [] (impl_sounds w !! entityId) →
              DestroySound og ∈ new_calls w w2)) in Hloop as [Hrun Hall].
  - split; [done|]. intros entityId name og Hin. by apply Hall.
  - apply removal_step_refl.
  - apply removal_step_trans.
  - intros entityId w1 w2 _ Hw1 [Hstep Hall]%removeSoundsForEntity_step.
    split; [done|]. intros name og Hin.
    destruct Hw1 as [(_ & _ & _ & _ & t & Ht & _) Hlists].
    apply (new_calls_since w w1 w2 t _ Ht). apply (Hall name).
    by rewrite Hlists.
  - intros entityId w1 w2 Hc Hstep name og Hin. eapply removal_step_more; [done|].
    by eapply Hc.
Qed.

Lemma restoreSound_attempted entityId sceneNodeComponent sound w w' c sceneNode s :
  Impl_restoreSound entityId sceneNodeComponent sound w = Ok (tt, w') →
  sceneNodes w !! sceneNodeComponent = Some c →
  m_sceneNode c = Some sceneNode →
  sounds w !! sound = Some s →
  attempted w w' sceneNode s.
Proof.
  intros (c' & Hc' & Hcases)%restoreSound_cases Hc Hnode Hs.
  assert (c' = c) as -> by congruence.
  destruct Hcases as [[Hnull _]|(node & s' & Hnode' & Hs' & Hcases)]; [congruence|].
  assert (node = sceneNode) as -> by congruence.
  assert (s' = s) as -> by congruence.
  destruct Hcases as [[_ ->]|[_ ->]].
  - exists None. erewrite new_calls_app; [|done]. split; [right; left|done].
  - eexists (Some _). erewrite new_calls_app; [|done]. split; [right; left|].
    intros og [= <-]. right. right. left.
Qed.

Lemma attempted_later w0 w1 w2 t1 t2 sceneNode (s s' : Sound) :
  calls w1 = calls w0 ++ t1 → calls w2 = calls w1 ++ t2 →
  m_name s' = m_name s → m_filename s' = m_filename s →
  m_properties s' = m_properties s →
  attempted w1 w2 sceneNode s' → attempted w0 w2 sceneNode s.
Proof.
  intros Ht1 Ht2 Hn Hf Hp (ret & Hcreate & Hattach). exists ret.
  unfold Sound_name, Sound_filename in *. rewrite Hn, Hf, Hp in Hcreate.
  split; [by eapply new_calls_since|].
  intros og Hog. eapply new_calls_since; [done|]. by apply Hattach.
Qed.

Lemma attempted_kept P w0 w1 w2 sceneNode s :
  attempted w0 w1 sceneNode s → kept P w1 w2 → attempted w0 w2 sceneNode s.
Proof.
  intros (ret & Hcreate & Hattach) (_ & _ & _ & _ & t & Ht & _). exists ret.
  split; [by eapply new_calls_more|].
  intros og Hog. eapply new_calls_more; [done|]. by apply Hattach.
Qed.

(** The second loop: [restoreSound] runs for every sound of every added
    entity; where the entity has a scene node, the sound manager is asked for
    the native sound. *)
Lemma update_added_step w w' :
  update_added w = Ok (tt, w') →
  kept is_restore_call w w' ∧
  ∀ entityId sceneNodeComponent soundSourceComponent component name sound c
    sceneNode s,
    (entityId, (sceneNodeComponent, soundSourceComponent))
      ∈ addedEntities (impl_entities w) →
    soundSources w !! soundSourceComponent = Some component →
    (name, sound) ∈ m_sounds component →
    sceneNodes w !! sceneNodeComponent = Some c →
    m_sceneNode c = Some sceneNode →
    sounds w !! sound = Some s →
    attempted w w' sceneNode s.
Proof.
  unfold update_added. intros (l & w0 & Hget & Hloop)%bind_Ok.
  injection Hget as <- <-.
  apply (for_each_rel_each (kept is_restore_call)
           (λ value w2, ∀ component name sound c sceneNode s,
              soundSources w !! value.2.2 = Some component →
              (name, sound) ∈ m_sounds component →
              sceneNodes w !! value.2.1 = Some c →
              m_sceneNode c = Some sceneNode →
              sounds w !! sound = Some s →
              attempted w w2 sceneNode s)) in Hloop as [Hrun Hall].
  - split; [done|]. intros e snc ssc component name sound c sceneNode s Hin.
    apply (Hall _ Hin).
  - apply kept_refl.
  - apply kept_trans.
  - intros [e [snc ssc]] w1 w2 _ Hw1. simpl.
    intros (component & w3 & [Hc ->]%deref_Ok & Hinner)%bind_Ok.
    apply (for_each_rel_each (kept is_restore_call)
             (λ pair w2, ∀ c sceneNode s,
                sceneNodes w !! snc = Some c →
                m_sceneNode c = Some sceneNode →
                sounds w !! pair.2 = Some s →
                attempted w w2 sceneNode s)) in Hinner as [Hrun Hall].
    + split; [done|]. intros component' name sound c sceneNode s Hc' Hin.
      destruct Hw1 as (Hsrc & _). rewrite Hsrc in Hc.
      assert (component' = component) as -> by congruence.
      apply (Hall _ Hin).
    + apply kept_refl.
    + apply kept_trans.
    + intros [name sound] w4 w5 _ Hw4 Hturn. simpl in *.
      pose proof (restoreSound_kept _ _ _ _ _ Hturn) as Hstep.
      split; [done|]. intros c sceneNode s Hc0 Hnode Hs.
      pose proof (kept_trans _ _ _ _ Hw1 Hw4) as (_ & Hscene & _ & Hsounds & t & Ht & _).
      destruct (Hsounds sound s Hs) as (s' & Hs' & Hp & Hn & Hf).
      destruct Hstep as (_ & _ & _ & _ & t' & Ht' & _).
      apply (attempted_later w w4 w5 t t' sceneNode s s'); try done.
      eapply restoreSound_attempted; [done| |done|done].
      by rewrite Hscene.
    + intros pair w4 w5 Hatt Hstep c sceneNode s Hc0 Hnode Hs.
      eapply attempted_kept; [|done]. by eapply Hatt.
  - intros value w1 w2 Hatt Hstep component name sound c sceneNode s ? ? ? ? ?.
    eapply attempted_kept; [|done]. by eapply Hatt.
Qed.

End StepFacts.

(** ** The system: update *)

Section UpdateFacts.
Context `{!Engine}.

Lemma update_phases w w' :
  SoundSourceSystem_update w = Ok (tt, w') →
  ∃ w1 w2,
    update_removed w = Ok (tt, w1) ∧
    update_added w1 = Ok (tt, w2) ∧
    update_tracked (set_impl_entities (clearChanges (impl_entities w2)) w2) = Ok (tt, w').
Proof.
  unfold SoundSourceSystem_update.
  intros ([] & w1 & Hremoved & Hrun)%bind_Ok.
  apply bind_Ok in Hrun as ([] & w2 & Hadded & Hrun).
  apply bind_Ok in Hrun as ([] & w3 & Hclear & Hrun).
  injection Hclear as <-. eauto.
Qed.

Lemma sound_call_returns og c w :
  is_Some (natives w !! og) →
  sound_call og c w = Ok (tt, set_calls (calls w ++ [c]) w).
Proof. intros [o Ho]. unfold sound_call, bind, deref, call, modify. by rewrite Ho. Qed.

Lemma sync_properties_returns sound w s og :
  sounds w !! sound = Some s → m_sound s = Some og → is_Some (natives w !! og) →
  sync_properties sound w =
    Ok (tt, set_sounds
              (<[sound := mkSound (untouch (m_properties s)) (m_sound s)
                            (m_filename s) (m_name s)]> (sounds w))
              (set_calls (calls w ++ sync_calls og (m_properties s)) w)).
Proof.
  intros Hs Hog [o Ho].
  unfold sync_properties, bind at 1, deref at 1. rewrite Hs, Hog.
  do 5 (unfold bind at 1; rewrite sound_call_returns by (simpl; by exists o)).
  unfold bind at 1. rewrite play_switch_returns by (simpl; by exists o).
  unfold modify, sync_calls, set_calls, set_sounds. simpl. by rewrite <- !app_assoc.
Qed.

Lemma update_sound_returns entityId sceneNodeComponent sound w w1 s og :
  steady_since w w1 →
  sounds w !! sound = Some s → m_sound s = Some og → is_Some (natives w !! og) →
  ∃ w2, update_sound entityId sceneNodeComponent sound w1 = Ok (tt, w2) ∧
        steady_since w w2.
Proof.
  intros (Hsrc & Hnat & Hsounds) Hs Hog Hlive.
  destruct (Hsounds sound s og Hs Hog) as (s1 & Hs1 & Hog1).
  unfold update_sound, bind, deref. rewrite Hs1, Hog1. simpl. rewrite Hs1.
  destruct (hasChanges (m_properties s1)).
  - rewrite (sync_properties_returns sound w1 s1 og); [|done|done|by rewrite Hnat].
    eexists. split; [done|]. split_and!; [done|done|].
    intros q s' og' Hq Hog'. destruct (Hsounds q s' og' Hq Hog') as (s2 & Hs2 & Hog2).
    simpl. destruct (decide (q = sound)) as [->|Hne].
    + rewrite lookup_insert_eq. eexists. split; [done|]. simpl. congruence.
    + rewrite lookup_insert_ne by done. eauto.
  - by exists w1.
Qed.

(** On a steady frame [update()] returns: no pointer it goes through is
    null or dangling. *)
Lemma update_returns_when_steady w :
  steady w → ∃ w', SoundSourceSystem_update w = Ok (tt, w').
Proof.
  intros (Hremoved & Hadded & Htracked).
  assert (update_removed w = Ok (tt, w)) as Hfirst.
  { unfold update_removed, bind, get. by rewrite Hremoved. }
  assert (update_added w = Ok (tt, w)) as Hsecond.
  { unfold update_added, bind, get. by rewrite Hadded. }
  unfold SoundSourceSystem_update, bind at 1. rewrite Hfirst.
  unfold bind at 1. rewrite Hsecond.
  unfold bind at 1, modify, update_tracked, bind at 1, get. simpl.
  destruct (for_each_returns
              (steady_since w)
              (λ value : EntityId * ComponentGroup,
                 bind (deref soundSources value.2.2)
                   (λ soundSourceComponent,
                      for_each (m_sounds soundSourceComponent)
                        (λ pair : string * ptr,
                           update_sound value.1 value.2.1 pair.2)))
              (entities (impl_entities w))
              (set_impl_entities (clearChanges (impl_entities w)) w))
    as (w' & Hrun & _).
  - split_and!; try done. intros sound s og Hs Hog. by exists s.
  - intros [e [snc ssc]] w1 Hin Hw1. simpl.
    destruct (Htracked e snc ssc Hin) as (component & Hc & Hall).
    unfold bind at 1, deref. destruct Hw1 as (Hsrc & Hnat & Hsounds).
    rewrite Hsrc, Hc.
    apply (for_each_returns (steady_since w)); [done|].
    intros [name sound] w2 Hsound Hw2. simpl.
    destruct (Hall name sound Hsound) as (s & og & Hs & Hog & Hlive).
    by eapply update_sound_returns.
  - exists w'. exact Hrun.
Qed.

(** One turn of the third loop on a sound with pending changes whose
    restore does nothing, because the scene node is missing or because the
    sound manager yields no sound: the sync branch goes through the null
    [m_sound]. *)
Lemma update_sound_without_native entityId sceneNodeComponent sound w c s :
  sceneNodes w !! sceneNodeComponent = Some c →
  sounds w !! sound = Some s →
  m_sound s = None →
  hasChanges (m_properties s) = true →
  m_sceneNode c = None ∨
    createSound_succeeds (natives w) (Sound_name s) (Sound_filename s) = false →
  update_sound entityId sceneNodeComponent sound w = Err NullDeref.
Proof.
  intros Hc Hs Hnull Hdirty Hwhy.
  unfold update_sound, bind at 1, deref at 1. rewrite Hs, Hnull.
  unfold Impl_restoreSound, bind, deref. rewrite Hc.
  destruct (m_sceneNode c) as [sceneNode|] eqn:Hnode.
  - destruct Hwhy as [|Hfail]; [done|].
    unfold call, modify, createSound. simpl. rewrite Hs. simpl. rewrite Hfail.
    simpl. rewrite Hs, Hdirty. unfold sync_properties, bind, deref. simpl.
    by rewrite Hs, Hnull.
  - simpl. rewrite Hs, Hdirty. unfold sync_properties, bind, deref.
    by rewrite Hs, Hnull.
Qed.

End UpdateFacts.

Section SystemExamples.
Local Existing Instance plain_engine.
Import Examples.

Lemma restoreSound_null_sceneNode_witness :
  Impl_restoreSound 7 1%positive 1%positive playing_world_without_node =
    Ok (tt, playing_world_without_node).
Proof.
  apply (restoreSound_null_sceneNode 7 1%positive 1%positive
           playing_world_without_node (mkSceneNodeComponent None));
    reflexivity.
Defined.

Lemma restoreSound_creation_fails_witness :
  ∃ w', Impl_restoreSound 7 1%positive 1%positive silent_world = Ok (tt, w') ∧
    sounds w' = sounds silent_world ∧
    impl_sounds w' = impl_sounds silent_world ∧
    natives w' = natives silent_world ∧
    calls w' = [CoutLooping false; CreateSound "hum" "" true false true None].
Proof.
  destruct (restoreSound_creation_fails 7 1%positive 1%positive silent_world
              (mkSceneNodeComponent (Some 9%positive)) 9%positive silent)
    as (w' & Hrun & Hsounds & _ & Himpl & Hnatives & _ & _ & _ & Hcalls);
    [reflexivity..|].
  exists w'. split_and!; [exact Hrun|exact Hsounds|exact Himpl|exact Hnatives|exact Hcalls].
Defined.

(** C8 fails on the code: with the entity's scene node missing,
    [restoreSound] leaves [m_sound] null, and the sync branch that follows
    for the pending [play()] goes through the null pointer. *)
Theorem update_null_dereference :
  tracked playing_world_without_node 1%positive ∧
  sounds playing_world_without_node !! 1%positive = Some playing ∧
  hasChanges (m_properties playing) = true ∧
  SoundSourceSystem_update playing_world_without_node = Err NullDeref.
Proof.
  split_and!; [|reflexivity|reflexivity|vm_compute; reflexivity].
  exists 7, 1%positive, 1%positive, one_sound_component, "hum".
  split_and!; [left|reflexivity|left].
Qed.


End SystemExamples.

(** ** More on Sound: what the container holds *)

Section SoundStorageFacts.
Context `{!Engine}.

(** [storage()] loses nothing of a descriptor: two sounds with the same
    container have the same name, filename and properties, the dirty flag
    apart. *)
Theorem Sound_storage_injective (s1 s2 : Sound) :
  Sound_storage s1 = Sound_storage s2 → same_descriptor s1 s2.
Proof.
  intros Heq.
  pose proof (Sound_load_storage s1 Sound_default) as H1.
  pose proof (Sound_load_storage s2 Sound_default) as H2.
  rewrite Heq, H2 in H1. injection H1 as ? ? ? ? ? ? ? ? ?.
  unfold same_descriptor, untouch. split_and!; [done|done|]. congruence.
Qed.

(** A container with none of the nine keys loads as name and filename
    empty, Stop, no loop, distances -1, -1 and 100, priority 0, and volume
    0: the one field whose fallback is not the constructor's value (1.0). *)
Theorem Sound_load_missing_keys (st : StorageContainer) (s : Sound) :
  lacks_sound_keys st →
  Sound_load st s =
    mkSound
      (mkProperties (hasChanges (m_properties s)) Stop false float_zero
         float_neg1 float_neg1 float_100 0)
      (m_sound s) "" "" ∧
  volume Properties_default ≠ float_zero.
Proof.
  unfold lacks_sound_keys. rewrite !Forall_cons.
  intros (Hf & Hn & Hp & Hl & Hv & Hm & Hr & Hd & Hy & _). split; [|done].
  unfold Sound_load, Storage.get_string, Storage.get_int16, Storage.get_bool,
    Storage.get_float, Storage.get_uint8.
  by rewrite Hf, Hn, Hp, Hl, Hv, Hm, Hr, Hd, Hy.
Qed.

End SoundStorageFacts.

(** ** More on the sound collection *)

Section CollectionFacts.
Context `{!Engine}.
Implicit Types (h : Heap) (c : SoundSourceComponent).

Lemma erase_new {V} (m : list (string * V)) key v :
  key ∉ m.*1 → NameMap.erase key (m ++ [(key, v)]) = m.
Proof.
  induction m as [|[k x] m IH]; simpl.
  - intros _. by rewrite decide_True.
  - intros [Hk Hm]%not_elem_of_cons. rewrite decide_False by done. by rewrite IH.
Qed.

Lemma find_erase_ne {V} (m : list (string * V)) key key' :
  key' ≠ key → NameMap.find key' (NameMap.erase key m) = NameMap.find key' m.
Proof.
  intros Hne. induction m as [|[k x] m IH]; simpl; [done|].
  destruct (decide (k = key)) as [->|Hk].
  - by rewrite decide_False.
  - simpl. by rewrite IH.
Qed.

(** [addSound] with a name that is taken: the heap and the collection are
    as they were, and the pointer that is returned and appended to
    [m_addedSounds] points at no live sound. *)
Theorem addSound_taken_name_dangles name filename h c p h' c' :
  name ∈ (m_sounds c).*1 →
  SoundSourceComponent_addSound name filename h c = (p, h', c') →
  h' = h ∧ h' !! p = None ∧
  m_sounds c' = m_sounds c ∧
  m_addedSounds c' = m_addedSounds c ++ [p].
Proof.
  intros [q Hq]%find_is_Some. unfold SoundSourceComponent_addSound.
  destruct (make_unique _ h) as [r h1] eqn:Hmk.
  apply make_unique_fresh in Hmk as [Hfresh ->].
  unfold emplace_owned. rewrite Hq. intros [= <- <- <-]. simpl.
  by rewrite delete_insert_eq, delete_id.
Qed.

(** [addSound] of a new name followed by [removeSound] of it: the heap and
    the collection are back where they were, and both lists have grown by
    the pointer of the sound that came and went. *)
Theorem addSound_then_removeSound name filename h c p h1 c1 :
  name ∉ (m_sounds c).*1 →
  SoundSourceComponent_addSound name filename h c = (p, h1, c1) →
  SoundSourceComponent_removeSound name h1 c1 =
    (h, mkSoundSource (base c) (m_relativeToListener c) (m_addedSounds c ++ [p])
          (m_removedSounds c ++ [p]) (m_sounds c)).
Proof.
  intros Hnew. pose proof Hnew as Hf%find_None. unfold SoundSourceComponent_addSound.
  destruct (make_unique _ h) as [r h2] eqn:Hmk.
  apply make_unique_fresh in Hmk as [Hfresh ->].
  unfold emplace_owned. rewrite Hf.
  destruct (find_emplace_new (m_sounds c) name r Hf) as [-> _].
  intros [= <- <- <-]. unfold SoundSourceComponent_removeSound. simpl.
  rewrite find_app, Hf. simpl. rewrite decide_True by done.
  by rewrite erase_new, delete_insert_eq, delete_id.
Qed.

(** [addSound] leaves what is there alone, whether the name is taken or
    not: every other name finds the sound it found before, and every sound
    that was alive is alive and unchanged. *)
Theorem addSound_keeps_others name filename h c p h' c' :
  SoundSourceComponent_addSound name filename h c = (p, h', c') →
  (∀ other, other ≠ name →
     NameMap.find other (m_sounds c') = NameMap.find other (m_sounds c)) ∧
  (∀ q s, h !! q = Some s → h' !! q = Some s) ∧
  m_removedSounds c' = m_removedSounds c ∧
  m_relativeToListener c' = m_relativeToListener c.
Proof.
  unfold SoundSourceComponent_addSound.
  destruct (make_unique _ h) as [r h1] eqn:Hmk.
  apply make_unique_fresh in Hmk as [Hfresh ->].
  unfold emplace_owned, NameMap.emplace.
  destruct (NameMap.find name (m_sounds c)) as [q|] eqn:Hf;
    intros [= <- <- <-]; simpl; split_and!; try done.
  - intros q' s Hs. by rewrite delete_insert_eq, delete_id.
  - intros other Hne. rewrite find_app. simpl. rewrite decide_False by done.
    by destruct (NameMap.find other (m_sounds c)).
  - intros q s Hs. rewrite lookup_insert_ne; [done|]. intros ->. congruence.
Qed.

(** [removeSound] in a collection without a key twice: the name is no
    longer found, every other name finds what it found before, and the
    pointer queued in [m_removedSounds] points at a sound that is gone. *)
Theorem removeSound_lookup name h c h' c' :
  NoDup (m_sounds c).*1 →
  SoundSourceComponent_removeSound name h c = (h', c') →
  NameMap.find name (m_sounds c') = None ∧
  (∀ other, other ≠ name →
     NameMap.find other (m_sounds c') = NameMap.find other (m_sounds c)) ∧
  (∀ p, NameMap.find name (m_sounds c) = Some p →
     m_removedSounds c' = m_removedSounds c ++ [p] ∧ h' !! p = None).
Proof.
  intros Hnd. unfold SoundSourceComponent_removeSound.
  destruct (NameMap.find name (m_sounds c)) as [p|] eqn:Hf; intros [= <- <-]; simpl.
  - split_and!.
    + apply find_None. by apply erase_keys_NoDup.
    + intros other Hne. by apply find_erase_ne.
    + intros ? [= <-]. by rewrite lookup_delete_eq.
  - split_and!; done.
Qed.

(** The loop of [load] only adds: an entry that is there stays with its
    pointer, and a sound that is alive stays as it is. *)
Lemma load_sounds_keeps (l : StorageList) h (m : list (string * ptr)) h' m' :
  load_sounds l h m = (h', m') →
  (∀ key p, NameMap.find key m = Some p → NameMap.find key m' = Some p) ∧
  (∀ q s, h !! q = Some s → h' !! q = Some s).
Proof.
  revert h m. induction l as [|st l IH]; intros h m.
  - by intros [= <- <-].
  - rewrite load_sounds_cons. cbv zeta.
    set (s := Sound_load st Sound_default).
    destruct (make_unique s h) as [p h1] eqn:Hmk.
    apply make_unique_fresh in Hmk as [Hfresh ->].
    unfold emplace_owned, NameMap.emplace.
    destruct (NameMap.find (Sound_name s) m) as [q|] eqn:Hf.
    + rewrite delete_insert_eq, delete_id by done. apply IH.
    + intros [Hm Hh]%IH. split.
      * intros key r Hr. apply Hm. rewrite find_app. by rewrite Hr.
      * intros q s' Hq. apply Hh. rewrite lookup_insert_ne; [done|].
        intros ->. congruence.
Qed.

(** [load] on a component that holds sounds already: what it held it still
    holds, and the two pointer lists do not hear of the loaded sounds. *)
Theorem load_keeps_existing storage h c h' c' :
  SoundSourceComponent_load storage h c = (h', c') →
  (∀ key p, NameMap.find key (m_sounds c) = Some p →
     NameMap.find key (m_sounds c') = Some p) ∧
  (∀ q s, h !! q = Some s → h' !! q = Some s) ∧
  m_addedSounds c' = m_addedSounds c ∧
  m_removedSounds c' = m_removedSounds c.
Proof.
  unfold SoundSourceComponent_load.
  destruct (load_sounds _ h (m_sounds c)) as [h2 m2] eqn:Hl.
  intros [= <- <-]. simpl. apply load_sounds_keeps in Hl as [? ?]. done.
Qed.

Lemma load_sounds_restores (ss : list Sound) h (m : list (string * ptr)) :
  NoDup (Sound_name <$> ss) →
  (∀ s, s ∈ ss → Sound_name s ∉ m.*1) →
  ∃ h' m',
    load_sounds (Sound_storage <$> ss) h m = (h', m') ∧
    m'.*1 = m.*1 ++ (Sound_name <$> ss) ∧
    ∀ s, s ∈ ss →
      ∃ p s', NameMap.find (Sound_name s) m' = Some p ∧ h' !! p = Some s' ∧
              same_descriptor s s' ∧ m_sound s' = None.
Proof.
  revert h m. induction ss as [|s ss IH]; intros h m Hnd Hnew.
  - exists h, m. split_and!; [done|by rewrite app_nil_r|].
    intros s Hs. by apply elem_of_nil in Hs.
  - rewrite fmap_cons in Hnd. apply NoDup_cons in Hnd as [Hs Hnd].
    rewrite fmap_cons, load_sounds_cons, Sound_load_storage. cbv zeta.
    set (s0 := mkSound _ _ _ _).
    destruct (make_unique s0 h) as [p h1] eqn:Hmk.
    apply make_unique_fresh in Hmk as [Hfresh ->].
    assert (NameMap.find (Sound_name s0) m = None) as Hf.
    { apply find_None. apply (Hnew s). left. }
    unfold emplace_owned. rewrite Hf.
    destruct (find_emplace_new m (Sound_name s0) p Hf) as [-> _].
    destruct (IH (<[p := s0]> h) (m ++ [(Sound_name s0, p)]) Hnd)
      as (h' & m' & Hrun & Hkeys & Hall).
    { intros s' Hs'. rewrite fmap_app. simpl. intros [Hin|Hin]%elem_of_app.
      - apply (Hnew s'); [by right|done].
      - apply list_elem_of_singleton in Hin. apply Hs.
        apply list_elem_of_fmap. exists s'. split; [|done]. by rewrite Hin. }
    exists h', m'. split_and!; [done| |].
    + rewrite Hkeys, fmap_app. simpl. by rewrite <- app_assoc.
    + intros s' [->|Hs']%elem_of_cons; [|by apply Hall].
      destruct (load_sounds_keeps _ _ _ _ _ Hrun) as [Hm Hh].
      exists p, s0. split_and!.
      * apply Hm. change (Sound_name s) with (Sound_name s0).
        rewrite find_app, Hf. simpl. by rewrite decide_True.
      * apply Hh. by rewrite lookup_insert_eq.
      * done.
      * done.
Qed.

(** The reading half of the round trip works: from a container that holds
    the containers of sounds with distinct names under the key sounds, [load]
    into a fresh component gives a component whose names are the stored
    names, in whatever order the map keeps them, and which owns, for each
    stored sound and under its name, a sound with the same descriptor and no
    native sound yet. *)
Theorem load_restores_stored_sounds storage (ss : list Sound) h :
  storage !! "sounds" = Some (VList (Sound_storage <$> ss)) →
  NoDup (Sound_name <$> ss) →
  ∃ h' c',
    SoundSourceComponent_load storage h SoundSourceComponent_new = (h', c') ∧
    (m_sounds c').*1 ≡ₚ Sound_name <$> ss ∧
    ∀ s, s ∈ ss →
      ∃ p s', NameMap.find (Sound_name s) (m_sounds c') = Some p ∧
              h' !! p = Some s' ∧ same_descriptor s s' ∧ m_sound s' = None.
Proof.
  intros Hst Hnd. unfold SoundSourceComponent_load, Storage.get_list. rewrite Hst.
  destruct (load_sounds_restores ss h [] Hnd) as (h' & m' & Hrun & Hkeys & Hall).
  { intros s _. apply not_elem_of_nil. }
  simpl. rewrite Hrun. eexists _, _. split; [done|]. simpl. by rewrite Hkeys.
Qed.

End CollectionFacts.

(** ** More on the system: sounds that come and go *)

Section LifecycleFacts.
Context `{!Engine}.

Lemma restoreSound_runs entityId sceneNodeComponent sound w c sceneNode s :
  sceneNodes w !! sceneNodeComponent = Some c →
  m_sceneNode c = Some sceneNode →
  sounds w !! sound = Some s →
  createSound_succeeds (natives w) (Sound_name s) (Sound_filename s) = true →
  Impl_restoreSound entityId sceneNodeComponent sound w =
    Ok (tt, restored entityId sound s sceneNode (fresh (dom (natives w))) w).
Proof.
  intros Hc Hnode Hs Hcan.
  unfold Impl_restoreSound, bind at 1, deref at 1. rewrite Hc, Hnode.
  unfold bind at 1, deref at 1. rewrite Hs.
  unfold bind, call, modify, createSound, attachObject, deref, impl_sounds_at.
  simpl. rewrite Hcan. simpl.
  destruct (impl_sounds w !! entityId) as [m|] eqn:Hm;
    unfold bind, modify, call, set_impl_sounds, set_sounds, set_calls, set_natives;
    simpl; rewrite lookup_insert_eq; simpl; unfold modify, restored; simpl;
    do 2 f_equal; f_equal.
  all: rewrite ?Hm; simpl; try done.
  all: try by rewrite insert_insert_eq.
  all: by rewrite <- !app_assoc.
Qed.

(** [restoreSound] with a scene node and a sound manager that delivers: a
    native sound that was not alive is alive under the sound's name and
    hangs on the scene node, the descriptor points at it and is otherwise as
    it was, the other descriptors are untouched, the entity's list finds it
    under the sound's name when that name was not listed, and the calls are
    the console line, [createSound] and [attachObject]. *)
Theorem restoreSound_creates entityId sceneNodeComponent sound w c sceneNode s :
  sceneNodes w !! sceneNodeComponent = Some c →
  m_sceneNode c = Some sceneNode →
  sounds w !! sound = Some s →
  createSound_succeeds (natives w) (Sound_name s) (Sound_filename s) = true →
  ∃ og w',
    Impl_restoreSound entityId sceneNodeComponent sound w = Ok (tt, w') ∧
    natives w !! og = None ∧
    natives w' !! og = Some (mkOgreSound (Sound_name s) (Some sceneNode)) ∧
    sounds w' !! sound =
      Some (mkSound (m_properties s) (Some og) (m_filename s) (m_name s)) ∧
    (∀ other, other ≠ sound → sounds w' !! other = sounds w !! other) ∧
    (NameMap.find (Sound_name s) (default [] (impl_sounds w !! entityId)) = None →
     NameMap.find (Sound_name s) (default [] (impl_sounds w' !! entityId)) = Some og) ∧
    calls w' = calls w ++
      [CoutLooping (loop (m_properties s));
       CreateSound (Sound_name s) (Sound_filename s) STREAM (loop (m_properties s))
         PREBUFFER (Some og);
       AttachObject sceneNode og].
Proof.
  intros Hc Hnode Hs Hcan.
  exists (fresh (dom (natives w))), (restored entityId sound s sceneNode
                                       (fresh (dom (natives w))) w).
  split_and!.
  - by apply restoreSound_runs with c.
  - apply not_elem_of_dom, is_fresh.
  - simpl. by rewrite lookup_insert_eq.
  - simpl. by rewrite lookup_insert_eq.
  - intros other Hne. simpl. by rewrite lookup_insert_ne.
  - intros Hf. simpl. rewrite lookup_insert_eq. simpl.
    by apply find_emplace_new.
  - done.
Qed.

(** [restoreSound] for a name the entity's list holds already, as when a
    sound is restored a second time: the new native sound is alive and the
    descriptor points at it, but the list still finds the old pointer under
    the name, so a later [removeSoundsForEntity] does not reach the new
    sound. *)
Theorem restoreSound_listed_name entityId sceneNodeComponent sound w c sceneNode s old :
  sceneNodes w !! sceneNodeComponent = Some c →
  m_sceneNode c = Some sceneNode →
  sounds w !! sound = Some s →
  createSound_succeeds (natives w) (Sound_name s) (Sound_filename s) = true →
  NameMap.find (Sound_name s) (default [] (impl_sounds w !! entityId)) = Some old →
  ∃ og w',
    Impl_restoreSound entityId sceneNodeComponent sound w = Ok (tt, w') ∧
    is_Some (natives w' !! og) ∧
    (∃ s', sounds w' !! sound = Some s' ∧ m_sound s' = Some og) ∧
    default [] (impl_sounds w' !! entityId) = default [] (impl_sounds w !! entityId) ∧
    (is_Some (natives w !! old) → og ≠ old).
Proof.
  intros Hc Hnode Hs Hcan Hold.
  exists (fresh (dom (natives w))), (restored entityId sound s sceneNode
                                       (fresh (dom (natives w))) w).
  split_and!.
  - by apply restoreSound_runs with c.
  - simpl. by rewrite lookup_insert_eq.
  - simpl. rewrite lookup_insert_eq. by eexists.
  - simpl. rewrite lookup_insert_eq. simpl. unfold NameMap.emplace. by rewrite Hold.
  - intros [o Ho] Heq. rewrite <- Heq in Ho.
    pose proof (is_fresh (dom (natives w))) as Hfresh.
    apply Hfresh, elem_of_dom. by exists o.
Qed.

Lemma removal_frame_refl w : removal_frame w w.
Proof. by split. Qed.

Lemma removal_frame_trans w1 w2 w3 :
  removal_frame w1 w2 → removal_frame w2 w3 → removal_frame w1 w3.
Proof. intros [? ?] [? ?]. split; [congruence|by auto]. Qed.

Lemma removeSoundsForEntity_frame entityId w w' :
  Impl_removeSoundsForEntity entityId w = Ok (tt, w') →
  removal_frame w w' ∧
  ∀ name og, (name, og) ∈ default [] (impl_sounds w !! entityId) →
    natives w' !! og = None.
Proof.
  unfold Impl_removeSoundsForEntity. intros (m & w0 & Hat & Hloop)%bind_Ok.
  assert (m = default [] (impl_sounds w !! entityId) ∧ removal_frame w w0) as [-> Hw0].
  { revert Hat. unfold impl_sounds_at.
    destruct (impl_sounds w !! entityId); intros [= <- <-]; by repeat split. }
  apply (for_each_rel_each removal_frame (λ pair w2, natives w2 !! pair.2 = None))
    in Hloop as [Hrun Hall].
  - split; [by eapply removal_frame_trans|]. intros name og Hin. apply (Hall _ Hin).
  - apply removal_frame_refl.
  - apply removal_frame_trans.
  - intros [name og] w1 w2 _ _ (o & node & Ho & _ & ->)%removeSound_Ok. simpl.
    split; [split; [done|]|by rewrite lookup_delete_eq].
    intros og' Hnone. simpl. destruct (decide (og' = og)) as [->|Hne].
    + by rewrite lookup_delete_eq.
    + by rewrite lookup_delete_ne.
  - intros pair w1 w2 Hgone [_ Hshrink]. by apply Hshrink.
Qed.

(** [removeSoundsForEntity] does not empty the entity's list: a second call
    for an entity whose list is not empty goes through a pointer to a native
    sound the first call destroyed. *)
Theorem removeSoundsForEntity_again entityId w w' :
  Impl_removeSoundsForEntity entityId w = Ok (tt, w') →
  default [] (impl_sounds w !! entityId) ≠ [] →
  Impl_removeSoundsForEntity entityId w' = Err DanglingDeref.
Proof.
  intros Hrun Hlist.
  destruct (removeSoundsForEntity_frame _ _ _ Hrun) as [_ Hgone].
  destruct (removeSoundsForEntity_step _ _ _ Hrun) as [[_ Hlists] _].
  specialize (Hlists entityId).
  destruct (default [] (impl_sounds w !! entityId)) as [|[name og] rest] eqn:Hl; [done|].
  specialize (Hgone name og ltac:(left)).
  unfold Impl_removeSoundsForEntity, bind, impl_sounds_at.
  destruct (impl_sounds w' !! entityId) as [m|]; simpl in Hlists; [|done].
  subst m. simpl. unfold bind, deref. simpl. by rewrite Hgone.
Qed.

Lemma removal_run_refl w : removal_run w w.
Proof. split; [apply removal_step_refl|apply removal_frame_refl]. Qed.

Lemma removal_run_trans w1 w2 w3 :
  removal_run w1 w2 → removal_run w2 w3 → removal_run w1 w3.
Proof.
  intros [? ?] [? ?].
  split; [by eapply removal_step_trans|by eapply removal_frame_trans].
Qed.

Lemma removeAllSounds_run w w' :
  Impl_removeAllSounds w = Ok (tt, w') →
  impl_sounds w' = ∅ ∧
  sounds w' = sounds w ∧
  Forall is_removal_call (new_calls w w') ∧
  ∀ entityId group name og,
    (entityId, group) ∈ entities (impl_entities w) →
    (name, og) ∈ default [] (impl_sounds w !! entityId) →
    DestroySound og ∈ new_calls w w' ∧ natives w' !! og = None.
Proof.
  unfold Impl_removeAllSounds. intros (l & w0 & Hget & Hrun)%bind_Ok.
  injection Hget as <- <-.
  apply bind_Ok in Hrun as ([] & w1 & Hloop & Hclear). injection Hclear as <-.
  apply (for_each_rel_each removal_run
           (λ item w2, ∀ name og,
              (name, og) ∈ default [] (impl_sounds w !! item.1) →
              DestroySound og ∈ new_calls w w2 ∧ natives w2 !! og = None))
    in Hloop as [[[Hkept _] [Hsounds _]] Hall].
  - destruct Hkept as (_ & _ & _ & _ & t & Ht & HP).
    split_and!; [done|done| |].
    + by rewrite (new_calls_app w _ t).
    + intros e group name og Hin Hlisted.
      destruct (Hall _ Hin name og Hlisted) as [? ?]. done.
  - apply removal_run_refl.
  - apply removal_run_trans.
  - intros [e group] w2 w3 _ [[Hkept Hlists] _] Hturn. simpl in *.
    destruct (removeSoundsForEntity_step _ _ _ Hturn) as [Hstep Hdestroyed].
    destruct (removeSoundsForEntity_frame _ _ _ Hturn) as [Hframe Hgone].
    split; [done|]. intros name og Hin. rewrite <- Hlists in Hin.
    destruct Hkept as (_ & _ & _ & _ & t & Ht & _).
    split; [|by eapply Hgone].
    apply (new_calls_since w w2 w3 t _ Ht). by eapply Hdestroyed.
  - intros item w2 w3 Hitem [Hstep [_ Hshrink]] name og Hin.
    destruct (Hitem name og Hin) as [Hcall Hgone].
    split; [by eapply removal_step_more|by apply Hshrink].
Qed.

(** [removeAllSounds]: only detach and destroy calls are made; every native
    sound the map lists for a tracked entity is destroyed and not alive
    afterwards; the map ends up empty; and the sound descriptors are as they
    were, so an [m_sound] that pointed at such a native sound still does. *)
Theorem removeAllSounds_clears w w' :
  Impl_removeAllSounds w = Ok (tt, w') →
  impl_sounds w' = ∅ ∧
  sounds w' = sounds w ∧
  Forall is_removal_call (new_calls w w') ∧
  ∀ entityId group name og,
    (entityId, group) ∈ entities (impl_entities w) →
    (name, og) ∈ default [] (impl_sounds w !! entityId) →
    DestroySound og ∈ new_calls w w' ∧ natives w' !! og = None.
Proof. apply removeAllSounds_run. Qed.

(** [restoreAllSounds]: only the calls of [restoreSound] are made, the
    components, the filter and every descriptor's name, filename and
    properties with the dirty flag are as they were; and for every sound of
    every tracked entity that has a scene node, the sound manager was asked
    to create the native sound, and what it returned was attached. *)
Theorem restoreAllSounds_attempts w w' :
  Impl_restoreAllSounds w = Ok (tt, w') →
  kept is_restore_call w w' ∧
  ∀ entityId sceneNodeComponent soundSourceComponent component name sound c
    sceneNode s,
    (entityId, (sceneNodeComponent, soundSourceComponent))
      ∈ entities (impl_entities w) →
    soundSources w !! soundSourceComponent = Some component →
    (name, sound) ∈ m_sounds component →
    sceneNodes w !! sceneNodeComponent = Some c →
    m_sceneNode c = Some sceneNode →
    sounds w !! sound = Some s →
    attempted w w' sceneNode s.
Proof.
  unfold Impl_restoreAllSounds. intros (l & w0 & Hget & Hloop)%bind_Ok.
  injection Hget as <- <-.
  apply (for_each_rel_each (kept is_restore_call)
           (λ value w2, ∀ component name sound c sceneNode s,
              soundSources w !! value.2.2 = Some component →
              (name, sound) ∈ m_sounds component →
              sceneNodes w !! value.2.1 = Some c →
              m_sceneNode c = Some sceneNode →
              sounds w !! sound = Some s →
              attempted w w2 sceneNode s)) in Hloop as [Hrun Hall].
  - split; [done|]. intros e snc ssc component name sound c sceneNode s Hin.
    apply (Hall _ Hin).
  - apply kept_refl.
  - apply kept_trans.
  - intros [e [snc ssc]] w1 w2 _ Hw1. simpl.
    intros (component & w3 & [Hc ->]%deref_Ok & Hinner)%bind_Ok.
    apply (for_each_rel_each (kept is_restore_call)
             (λ pair w2, ∀ c sceneNode s,
                sceneNodes w !! snc = Some c →
                m_sceneNode c = Some sceneNode →
                sounds w !! pair.2 = Some s →
                attempted w w2 sceneNode s)) in Hinner as [Hrun Hall].
    + split; [done|]. intros component' name sound c sceneNode s Hc' Hin.
      destruct Hw1 as (Hsrc & _). rewrite Hsrc in Hc.
      assert (component' = component) as -> by congruence.
      apply (Hall _ Hin).
    + apply kept_refl.
    + apply kept_trans.
    + intros [name sound] w4 w5 _ Hw4 Hturn. simpl in *.
      pose proof (restoreSound_kept _ _ _ _ _ Hturn) as Hstep.
      split; [done|]. intros c sceneNode s Hc0 Hnode Hs.
      pose proof (kept_trans _ _ _ _ Hw1 Hw4) as (_ & Hscene & _ & Hsounds & t & Ht & _).
      destruct (Hsounds sound s Hs) as (s' & Hs' & Hp & Hn & Hf).
      destruct Hstep as (_ & _ & _ & _ & t' & Ht' & _).
      apply (attempted_later w w4 w5 t t' sceneNode s s'); try done.
      eapply restoreSound_attempted; [done| |done|done].
      by rewrite Hscene.
    + intros pair w4 w5 Hatt Hstep c sceneNode s Hc0 Hnode Hs.
      eapply attempted_kept; [|done]. by eapply Hatt.
  - intros value w1 w2 Hatt Hstep component name sound c sceneNode s ? ? ? ? ?.
    eapply attempted_kept; [|done]. by eapply Hatt.
Qed.

(** What [update()] leaves alone when it returns: the components; the
    filter's tracked entities, while its two change lists are empty
    afterwards; and of every sound descriptor the name, the filename and the
    properties.  A dirty flag is lowered at most, never raised. *)
Theorem update_keeps_descriptors w w' :
  SoundSourceSystem_update w = Ok (tt, w') →
  impl_entities w' = clearChanges (impl_entities w) ∧
  soundSources w' = soundSources w ∧
  sceneNodes w' = sceneNodes w ∧
  ∀ sound s, sounds w !! sound = Some s →
    ∃ s', sounds w' !! sound = Some s' ∧ same_descriptor s s' ∧
      (hasChanges (m_properties s) = false → hasChanges (m_properties s') = false).
Proof.
  intros (w1 & w2 & Hremoved & Hadded & Htracked)%update_phases.
  apply update_removed_step in Hremoved as [[Hkept1 _] _].
  apply update_added_step in Hadded as [Hkept2 _].
  apply update_tracked_synced in Htracked as [Hsynced _].
  pose proof (kept_trans _ _ _ _
                (kept_weaken _ (λ _, True) _ _ (λ _ _, I) Hkept1)
                (kept_weaken _ (λ _, True) _ _ (λ _ _, I) Hkept2))
    as (Hsrc & Hscene & Hfilter & Hsounds & _).
  destruct Hsynced as (Hsrc3 & Hscene3 & Hfilter3 & t3 & _ & _ & Hsounds3).
  simpl in *. split_and!; try congruence.
  intros sound s Hs.
  destruct (Hsounds sound s Hs) as (s2 & Hs2 & Hp & Hn & Hf).
  destruct (Hsounds3 sound s2 Hs2) as (s' & Hs' & Hn' & Hf' & Hu & _ & Hlow & _).
  exists s'. unfold same_descriptor. split_and!; try congruence.
  intros Hclean. apply Hlow. congruence.
Qed.

(** A steady frame without pending changes: [update()] returns and the
    state is the one it started from; no call is made. *)
Theorem update_steady_clean_noop w :
  steady w →
  (∀ sound s, tracked w sound → sounds w !! sound = Some s →
     hasChanges (m_properties s) = false) →
  SoundSourceSystem_update w = Ok (tt, w).
Proof.
  intros (Hremoved & Hadded & Htracked) Hclean.
  assert (update_removed w = Ok (tt, w)) as Hfirst.
  { unfold update_removed, bind, get. by rewrite Hremoved. }
  assert (update_added w = Ok (tt, w)) as Hsecond.
  { unfold update_added, bind, get. by rewrite Hadded. }
  assert (set_impl_entities (clearChanges (impl_entities w)) w = w) as Hsame.
  { destruct w as [? ? ? ? ? [? ? ?] ?]. simpl in *. by subst. }
  unfold SoundSourceSystem_update, bind at 1. rewrite Hfirst.
  unfold bind at 1. rewrite Hsecond.
  unfold bind at 1, modify. rewrite Hsame.
  unfold update_tracked, bind at 1, get.
  destruct (for_each_returns
              (λ w1, w1 = w)
              (λ value : EntityId * ComponentGroup,
                 bind (deref soundSources value.2.2)
                   (λ soundSourceComponent,
                      for_each (m_sounds soundSourceComponent)
                        (λ pair : string * ptr,
                           update_sound value.1 value.2.1 pair.2)))
              (entities (impl_entities w)) w)
    as (w' & Hrun & ->); [done| |done].
  intros [e [snc ssc]] w1 Hin ->. simpl.
  destruct (Htracked e snc ssc Hin) as (component & Hc & Hall).
  unfold bind at 1, deref. rewrite Hc.
  apply (for_each_returns (λ w1, w1 = w)); [done|].
  intros [name sound] w2 Hsound ->. simpl.
  destruct (Hall name sound Hsound) as (s & og & Hs & Hog & _).
  exists w. split; [|done].
  unfold update_sound, bind, deref. rewrite Hs, Hog. simpl. rewrite Hs.
  rewrite (Hclean sound s); [done| |done].
  by exists e, snc, ssc, component, name.
Qed.

(** After [removeAllSounds] a descriptor still points at its destroyed
    native sound: the next turn of [update]'s third loop on such a sound with
    pending changes does not restore it, since [m_sound] is not null, and
    pushes the properties through the dangling pointer. *)
Theorem update_sound_after_removeAllSounds w w' entityId group name og
    sceneNodeComponent sound s :
  Impl_removeAllSounds w = Ok (tt, w') →
  (entityId, group) ∈ entities (impl_entities w) →
  (name, og) ∈ default [] (impl_sounds w !! entityId) →
  sounds w !! sound = Some s →
  m_sound s = Some og →
  hasChanges (m_properties s) = true →
  update_sound entityId sceneNodeComponent sound w' = Err DanglingDeref.
Proof.
  intros (_ & Hsounds & _ & Hall)%removeAllSounds_run Hin Hlisted Hs Hog Hdirty.
  destruct (Hall _ _ _ _ Hin Hlisted) as [_ Hgone].
  unfold update_sound, bind, deref. rewrite Hsounds, Hs, Hog. simpl.
  rewrite Hsounds, Hs, Hdirty. unfold sync_properties, bind, deref.
  rewrite Hsounds, Hs, Hog. unfold sound_call, bind, deref. by rewrite Hgone.
Qed.

End LifecycleFacts.

Section MoreExamples.
Local Existing Instance plain_engine.
Import Examples.

Lemma Sound_storage_injective_witness :
  same_descriptor loud (mkSound (untouch (m_properties loud)) None "loud.ogg" "loud").
Proof. apply Sound_storage_injective. vm_compute. reflexivity. Defined.

Lemma Sound_load_missing_keys_witness :
  Sound_load one_sound_storage loud =
    mkSound (mkProperties true Stop false float_zero float_neg1 float_neg1
               float_100 0)
      (Some 5%positive) "" "".
Proof.
  apply (Sound_load_missing_keys one_sound_storage loud).
  unfold lacks_sound_keys. repeat constructor.
Defined.

Lemma addSound_taken_name_dangles_witness :
  ∃ p h' c',
    SoundSourceComponent_addSound "hum" "again.ogg" one_sound_heap one_sound_component
      = (p, h', c') ∧
    h' = one_sound_heap ∧ h' !! p = None ∧
    m_sounds c' = m_sounds one_sound_component ∧
    m_addedSounds c' = m_addedSounds one_sound_component ++ [p].
Proof.
  eexists _, _, _. split; [vm_compute; reflexivity|].
  eapply (addSound_taken_name_dangles "hum" "again.ogg");
    [vm_compute; left|vm_compute; reflexivity].
Defined.

Lemma addSound_then_removeSound_witness :
  SoundSourceComponent_removeSound "hum" one_sound_heap one_sound_component =
    (∅, mkSoundSource tt true [1%positive] [1%positive] []).
Proof.
  apply (addSound_then_removeSound "hum" "hum.ogg" ∅ SoundSourceComponent_new
           1%positive one_sound_heap one_sound_component);
    [apply not_elem_of_nil|reflexivity].
Defined.

Lemma addSound_keeps_others_witness :
  ∃ p h' c',
    SoundSourceComponent_addSound "drone" "drone.ogg" one_sound_heap one_sound_component
      = (p, h', c') ∧
    NameMap.find "hum" (m_sounds c') = NameMap.find "hum" (m_sounds one_sound_component) ∧
    h' !! 1%positive = one_sound_heap !! 1%positive.
Proof.
  eexists _, _, _. split; [vm_compute; reflexivity|].
  match goal with
  | |- NameMap.find _ (m_sounds ?c') = _ ∧ ?h' !! _ = _ =>
      destruct (addSound_keeps_others "drone" "drone.ogg" one_sound_heap
                  one_sound_component 2%positive h' c') as (Hfind & Halive & _);
        [vm_compute; reflexivity|]
  end.
  split; [by apply Hfind|]. by erewrite Halive.
Defined.

Lemma removeSound_lookup_witness :
  ∃ h' c',
    SoundSourceComponent_removeSound "hum" one_sound_heap one_sound_component = (h', c') ∧
    NameMap.find "hum" (m_sounds c') = None ∧
    m_removedSounds c' = [1%positive] ∧ h' !! 1%positive = None.
Proof.
  eexists _, _. split; [vm_compute; reflexivity|].
  match goal with
  | |- NameMap.find _ (m_sounds ?c') = _ ∧ _ ∧ ?h' !! _ = _ =>
      destruct (removeSound_lookup "hum" one_sound_heap one_sound_component h' c')
        as (Hgone & _ & Hqueued);
        [vm_compute; apply NoDup_singleton|vm_compute; reflexivity|]
  end.
  split; [exact Hgone|]. by apply Hqueued.
Defined.

Lemma load_keeps_existing_witness :
  ∃ h' c',
    SoundSourceComponent_load storage_with_sounds one_sound_heap one_sound_component
      = (h', c') ∧
    NameMap.find "hum" (m_sounds c') = Some 1%positive ∧
    h' !! 1%positive = one_sound_heap !! 1%positive ∧
    m_addedSounds c' = [1%positive].
Proof.
  eexists _, _. split; [vm_compute; reflexivity|].
  match goal with
  | |- NameMap.find _ (m_sounds ?c') = _ ∧ ?h' !! _ = _ ∧ _ =>
      destruct (load_keeps_existing storage_with_sounds one_sound_heap
                  one_sound_component h' c') as (Hfind & Halive & Hadded & _);
        [vm_compute; reflexivity|]
  end.
  split_and!; [by apply Hfind|by erewrite Halive|exact Hadded].
Defined.

Lemma load_restores_stored_sounds_witness :
  ∃ h' c',
    SoundSourceComponent_load storage_with_sounds ∅ SoundSourceComponent_new
      = (h', c') ∧
    (m_sounds c').*1 ≡ₚ ["loud"; "hum"] ∧
    ∃ p s', NameMap.find "loud" (m_sounds c') = Some p ∧ h' !! p = Some s' ∧
            same_descriptor loud s' ∧ m_sound s' = None.
Proof.
  destruct (load_restores_stored_sounds storage_with_sounds stored_sounds ∅)
    as (h' & c' & Hrun & Hkeys & Hall).
  - reflexivity.
  - vm_compute. apply NoDup_cons. split; [|apply NoDup_singleton].
    intros Hin. apply list_elem_of_singleton in Hin. discriminate Hin.
  - exists h', c'. split_and!; [exact Hrun|exact Hkeys|]. apply (Hall loud). left.
Defined.

Lemma restoreSound_creates_witness :
  ∃ og w',
    Impl_restoreSound 7 1%positive 1%positive playing_world = Ok (tt, w') ∧
    natives w' !! og = Some (mkOgreSound "hum" (Some 9%positive)) ∧
    sounds w' !! 1%positive =
      Some (mkSound (m_properties playing) (Some og) "hum.ogg" "hum") ∧
    NameMap.find "hum" (default [] (impl_sounds w' !! 7)) = Some og.
Proof.
  destruct (restoreSound_creates 7 1%positive 1%positive playing_world
              (mkSceneNodeComponent (Some 9%positive)) 9%positive playing)
    as (og & w' & Hrun & _ & Hnative & Hsound & _ & Hlisted & _); [reflexivity..|].
  exists og, w'. split_and!; [exact Hrun|exact Hnative|exact Hsound|].
  apply Hlisted. reflexivity.
Defined.

Lemma restoreSound_listed_name_witness :
  ∃ og w',
    Impl_restoreSound 7 1%positive 1%positive steady_world = Ok (tt, w') ∧
    is_Some (natives w' !! og) ∧
    default [] (impl_sounds w' !! 7) = [("hum", 5%positive)] ∧
    og ≠ 5%positive.
Proof.
  destruct (restoreSound_listed_name 7 1%positive 1%positive steady_world
              (mkSceneNodeComponent (Some 9%positive)) 9%positive synced_sound
              5%positive)
    as (og & w' & Hrun & Halive & _ & Hlist & Hnew); [reflexivity..|].
  exists og, w'. split_and!; [exact Hrun|exact Halive|exact Hlist|].
  apply Hnew. by eexists.
Defined.

Lemma removeSoundsForEntity_again_witness :
  ∃ w', Impl_removeSoundsForEntity 3 playing_world = Ok (tt, w') ∧
        Impl_removeSoundsForEntity 3 w' = Err DanglingDeref.
Proof.
  eexists. split; [vm_compute; reflexivity|].
  apply (removeSoundsForEntity_again 3 playing_world);
    [vm_compute; reflexivity|discriminate].
Defined.

Lemma removeAllSounds_clears_witness :
  ∃ w', Impl_removeAllSounds steady_world = Ok (tt, w') ∧
    impl_sounds w' = ∅ ∧
    sounds w' !! 1%positive = Some synced_sound ∧
    natives w' !! 5%positive = None.
Proof.
  eexists. split; [vm_compute; reflexivity|].
  match goal with
  | |- impl_sounds ?w' = _ ∧ _ =>
      destruct (removeAllSounds_clears steady_world w')
        as (Hempty & Hsounds & _ & Hall); [vm_compute; reflexivity|]
  end.
  split_and!; [exact Hempty|by rewrite Hsounds|].
  apply (Hall 7 (1%positive, 1%positive) "hum" 5%positive); left.
Defined.

Lemma restoreAllSounds_attempts_witness :
  ∃ w', Impl_restoreAllSounds playing_world = Ok (tt, w') ∧
    attempted playing_world w' 9%positive playing.
Proof.
  eexists. split; [vm_compute; reflexivity|].
  match goal with
  | |- attempted _ ?w' _ _ =>
      destruct (restoreAllSounds_attempts playing_world w') as [_ Hall];
        [vm_compute; reflexivity|]
  end.
  apply (Hall 7 1%positive 1%positive one_sound_component "hum" 1%positive
           (mkSceneNodeComponent (Some 9%positive)));
    [left|reflexivity|left|reflexivity..].
Defined.

Lemma update_keeps_descriptors_witness :
  ∃ w', SoundSourceSystem_update playing_world = Ok (tt, w') ∧
    impl_entities w' = mkEntityFilter [(7, (1%positive, 1%positive))] [] [] ∧
    ∃ s', sounds w' !! 1%positive = Some s' ∧ same_descriptor playing s'.
Proof.
  eexists. split; [vm_compute; reflexivity|].
  match goal with
  | |- impl_entities ?w' = _ ∧ _ =>
      destruct (update_keeps_descriptors playing_world w')
        as (Hfilter & _ & _ & Hsounds); [vm_compute; reflexivity|]
  end.
  split; [exact Hfilter|].
  destruct (Hsounds 1%positive playing eq_refl) as (s' & Hs' & Hsame & _).
  by exists s'.
Defined.

Lemma steady_example : steady steady_world.
Proof.
  split_and!; [done|done|].
  intros e snc ssc [Heq|Hin%elem_of_nil]%elem_of_cons; [|done].
  injection Heq as -> -> ->. exists one_sound_component. split; [done|].
  intros name sound [Heq|Hin%elem_of_nil]%elem_of_cons; [|done].
  injection Heq as -> ->. exists synced_sound, 5%positive.
  split_and!; [done|done|by eexists].
Qed.

Lemma update_steady_clean_noop_witness :
  SoundSourceSystem_update steady_world = Ok (tt, steady_world).
Proof.
  apply update_steady_clean_noop; [apply steady_example|].
  intros sound s (e & snc & ssc & component & name & Hin & Hc & Hs) Hsound.
  apply elem_of_cons in Hin as [Heq|Hin%elem_of_nil]; [|done].
  injection Heq as -> -> ->. injection Hc as <-.
  apply elem_of_cons in Hs as [Heq|Hs%elem_of_nil]; [|done].
  injection Heq as -> ->. by injection Hsound as <-.
Defined.

Lemma update_returns_when_steady_witness :
  ∃ w', SoundSourceSystem_update steady_world = Ok (tt, w').
Proof. apply update_returns_when_steady, steady_example. Defined.

Lemma update_sound_without_native_witness :
  update_sound 7 1%positive 1%positive playing_world_without_node = Err NullDeref.
Proof.
  apply (update_sound_without_native 7 1%positive 1%positive
           playing_world_without_node (mkSceneNodeComponent None) playing);
    [reflexivity..|by left].
Defined.

Lemma update_sound_after_removeAllSounds_witness :
  ∃ w', Impl_removeAllSounds pausing_world = Ok (tt, w') ∧
        update_sound 7 1%positive 1%positive w' = Err DanglingDeref.
Proof.
  eexists. split; [vm_compute; reflexivity|].
  apply (update_sound_after_removeAllSounds pausing_world _ 7 (1%positive, 1%positive)
           "hum" 5%positive 1%positive 1%positive (Sound_pause synced_sound));
    [vm_compute; reflexivity|left|left|reflexivity..].
Defined.

End MoreExamples.

(** ** update: the calls of the first two loops, one by one *)

Section TraceFacts.
Context `{!Engine}.














End TraceFacts.

Section TraceExamples.
Local Existing Instance plain_engine.
Import Examples.



End TraceExamples.

(** ** update: when it returns *)

Section ReturnFacts.
Context `{!Engine}.


















End ReturnFacts.

Section ReturnExamples.
Local Existing Instance plain_engine.
Import Examples.






End ReturnExamples.

(** ** update: a play state that is none of the enumerators *)

Section DefaultBranchFacts.
Context `{!Engine}.

Lemma play_calls_other og state :
  state ∉ [Play; Pause; Stop] → play_calls og state = [].
Proof.
  intros Hother. unfold play_calls, PlayState_switch.
  destruct state as [[v Hv]]. simpl.
  destruct v as [|[[?|?|]|[?|?|]|]|?]; try done; exfalso; apply Hother;
    rewrite !elem_of_cons.
  - left. f_equal. by apply int16_eq.
  - do 2 right. left. f_equal. by apply int16_eq.
  - right. left. f_equal. by apply int16_eq.
Qed.

(** The sync branch on a sound whose play state is none of the enumerators,
    which [load] can produce: the five setters are called, the [switch] takes
    its default branch and calls nothing, and the dirty flag is cleared. *)
Theorem sync_properties_other_playState sound w s og :
  sounds w !! sound = Some s →
  m_sound s = Some og →
  is_Some (natives w !! og) →
  playState (m_properties s) ∉ [Play; Pause; Stop] →
  ∃ w', sync_properties sound w = Ok (tt, w') ∧
    clean sound w' ∧
    calls w' = calls w ++
      [SetVolume og (volume (m_properties s));
       SetMaxDistance og (maxDistance (m_properties s));
       SetRolloffFactor og (rolloffFactor (m_properties s));
       SetReferenceDistance og (referenceDistance (m_properties s));
       SetPriority og (priority (m_properties s))].
Proof.
  intros Hs Hog Hlive Hother.
  rewrite (sync_properties_returns sound w s og) by done.
  eexists. split; [done|]. split.
  - eexists. simpl. rewrite lookup_insert_eq. by split.
  - simpl. unfold sync_calls. by rewrite play_calls_other, app_nil_r.
Qed.

End DefaultBranchFacts.

Section DefaultBranchExamples.
Local Existing Instance plain_engine.
Import Examples.

Lemma sync_properties_other_playState_witness :
  Sound_load (<["playState" := VInt16 (mkInt16 3 I)]> (Sound_storage offbeat))
    (Sound_new "" "") =
    mkSound (m_properties offbeat) None "hum.ogg" "hum" ∧
  ∃ w', SoundSourceSystem_update offbeat_world = Ok (tt, w') ∧
    sync_properties 1%positive offbeat_world = Ok (tt, w') ∧
    clean 1%positive w' ∧
    calls w' =
      [SetVolume 5%positive float_1; SetMaxDistance 5%positive float_neg1;
       SetRolloffFactor 5%positive float_neg1;
       SetReferenceDistance 5%positive float_100; SetPriority 5%positive 0].
Proof.
  split; [vm_compute; reflexivity|].
  destruct (sync_properties_other_playState 1%positive offbeat_world offbeat 5%positive)
    as (w' & Hrun & Hclean & Hcalls); [reflexivity|reflexivity|by eexists| |].
  - intros Hin. repeat (apply elem_of_cons in Hin as [Hin|Hin]; [discriminate Hin|]).
    by apply elem_of_nil in Hin.
  - exists w'. split_and!; [|done|done|done].
    vm_compute in Hrun. injection Hrun as <-. vm_compute. reflexivity.
Defined.

End DefaultBranchExamples.
